(** * gcpenum: candidate generation, bucket probing and the concurrent scan

    A shallow embedding of [main.go].  Go strings are byte sequences and are
    modelled by [string] (a list of 8-bit [ascii]); slices are lists; the
    [map[string]bool] of [removeDuplicates] is a [gmap string bool]; the
    goroutines of [main] are an interleaving step relation over a state that
    holds the semaphore, the wait group and the output channel. *)

From Stdlib Require Import ZArith String Ascii Numbers.DecimalString.
From stdpp Require Import base gmap strings list.

Local Open Scope string_scope.
Local Open Scope nat_scope.
Local Open Scope list_scope.
Local Open Scope stdpp_scope.

(** ** Byte strings: the functions of package [strings] and [bytes] used *)

Module GoStrings.

(** [strings.HasPrefix(s, prefix)]. *)
Fixpoint HasPrefix (s pre : string) {struct pre} : bool :=
  match pre, s with
  | EmptyString, _ => true
  | String _ _, EmptyString => false
  | String a pre', String b s' => if Ascii.eqb a b then HasPrefix s' pre' else false
  end.

(** [strings.Contains(s, substr)] and [bytes.Contains(b, subslice)]. *)
Fixpoint Contains (s sub : string) : bool :=
  HasPrefix s sub ||
  match s with
  | EmptyString => false
  | String _ s' => Contains s' sub
  end.

(** The scan of [strings.ReplaceAll]: the leftmost occurrence of [old] is
    replaced, the search resumes after it (occurrences do not overlap and the
    inserted text is not searched again).  [skip] counts the bytes of a matched
    occurrence that are still to be passed over. *)
Fixpoint replaceFrom (old new : string) (skip : nat) (s : string) : string :=
  match s with
  | EmptyString => EmptyString
  | String c s' =>
      match skip with
      | S k => replaceFrom old new k s'
      | O =>
          if HasPrefix s old
          then new +:+ replaceFrom old new (String.length old - 1) s'
          else String c (replaceFrom old new 0 s')
      end
  end.

(** [strings.ReplaceAll(s, old, new)] for a non-empty [old]; both call sites
    pass a literal placeholder.  (For an empty [old] Go inserts [new] between
    the runes of [s]; that case is returned unchanged here and never used.) *)
Definition ReplaceAll (s old new : string) : string :=
  match old with
  | EmptyString => s
  | String _ _ => replaceFrom old new 0 s
  end.

End GoStrings.
Export GoStrings.

(** ** Name generator *)

(** The six join templates of [generatePermutations]. *)
Definition permutations : list string :=
  [ "{keyword}-{suffix}"; "{suffix}-{keyword}";
    "{keyword}_{suffix}"; "{suffix}_{keyword}";
    "{keyword}{suffix}"; "{suffix}{keyword}" ].

(** One iteration of the inner loop: both placeholders are substituted, the
    keyword first, and the bucket is appended. *)
Definition expandTemplate (keyword suffix template : string) : string :=
  let bucket := ReplaceAll template "{keyword}" keyword in
  ReplaceAll bucket "{suffix}" suffix.

Definition appendTemplates (keyword : string) (buckets : list string)
    (suffix : string) : list string :=
  foldl (λ buckets template, buckets ++ [expandTemplate keyword suffix template])
        buckets permutations.

(** [removeDuplicates]: the loop over [input] with the [seen] map and the
    [result] slice.  A key absent from a Go map reads as [false]. *)
Fixpoint removeDuplicates_loop (seen : gmap string bool) (result input : list string)
    : list string :=
  match input with
  | [] => result
  | v :: input' =>
      if negb (default false (seen !! v))
      then removeDuplicates_loop (<[v:=true]> seen) (result ++ [v]) input'
      else removeDuplicates_loop seen result input'
  end.

Definition removeDuplicates (input : list string) : list string :=
  removeDuplicates_loop ∅ [] input.

(** The loop invariant: [seen] records exactly the strings already in
    [result]. *)
Definition seenOk (seen : gmap string bool) (result : list string) : Prop :=
  ∀ v, default false (seen !! v) = true ↔ v ∈ result.

(** [generatePermutations] once the wordlist has been read: [suffixes] are the
    lines of the wordlist file. *)
Definition generate (keyword : string) (suffixes : list string) : list string :=
  let buckets := foldl (appendTemplates keyword) [] suffixes in
  let buckets := buckets ++ [keyword; keyword +:+ ".com"; keyword +:+ ".net";
                             keyword +:+ ".org"] in
  removeDuplicates buckets.

(** The slice [buckets] of [generatePermutations] before [removeDuplicates]:
    six entries per suffix, then the four keyword-only entries. *)
Definition rawBuckets (keyword : string) (suffixes : list string) : list string :=
  (suffixes ≫= λ suffix, expandTemplate keyword suffix <$> permutations)
  ++ [keyword; keyword +:+ ".com"; keyword +:+ ".net"; keyword +:+ ".org"].

(** Two candidate lists share no entry. *)
Definition disjointCandidates (l1 l2 : list string) : Prop :=
  ∀ c, c ∈ l1 → c ∉ l2.

(** What follows [{keyword}] in a template once the keyword is substituted. *)
Definition templateTail (rest : string) : Prop :=
  rest = EmptyString ∨ rest = "-{suffix}" ∨ rest = "_{suffix}" ∨ rest = "{suffix}".

(** The reading of the claims: the six expansions of a keyword over a suffix,
    the four keyword-only forms, and the list of first occurrences. *)
Definition sixExpansions (k s : string) : list string :=
  [ k +:+ "-" +:+ s; s +:+ "-" +:+ k; k +:+ "_" +:+ s; s +:+ "_" +:+ k;
    k +:+ s; s +:+ k ].

Definition keywordForms (k : string) : list string :=
  [ k; k +:+ ".com"; k +:+ ".net"; k +:+ ".org" ].

Fixpoint firstOccurrences (l : list string) : list string :=
  match l with
  | [] => []
  | x :: l' => x :: filter (λ y, y ≠ x) (firstOccurrences l')
  end.


(** ** The outside world

    Go's [(value, err)] results, and the answers of the operating system, the
    network and [encoding/json] as oracles.  Theorems quantify over the oracle,
    so they hold for every behaviour of the environment. *)

Inductive result (A : Type) : Type :=
  | Ok (a : A)
  | Err (err : string).
Arguments Ok {A} a.
Arguments Err {A} err.

(** An [http.Response]: the status code and the bytes [ioutil.ReadAll] reads
    from the body, with the read error if there is one. *)
Record Response := {
  StatusCode : Z;
  Body : string;
  BodyErr : option string
}.

Record Object := { Name : string }.

Record ObjectListResponse := { Items : list Object }.

Record Env := {
  (** [http.Head(url)] and [http.Get(url)]: the response, or the error; the
      error is also that of a URL [net/http] refuses before sending anything *)
  http_Head : string → result Response;
  http_Get : string → result Response;
  (** [json.NewDecoder(resp.Body).Decode(&objectList)] *)
  json_Decode : Response → result ObjectListResponse;
  os_UserHomeDir : result string;
  filepath_Join : string → string → string;
  filepath_Dir : string → string;
  (** [os.IsNotExist(err)] for the [err] of [os.Stat(path)] *)
  os_StatNotExist : string → bool;
  os_MkdirAll : string → option string;
  ioutil_WriteFile : string → string → option string;
  (** [os.Open] and the [bufio.Scanner] loop: the lines, or the error *)
  os_ReadLines : string → result (list string);
  os_Create : string → option string
}.

Definition LF : string := String (ascii_of_nat 10) EmptyString.

(** [%d] of an [int]. *)
Definition fmt_d (n : Z) : string := NilZero.string_of_int (Z.to_int n).

(** ** Bucket prober and object lister

    What one call does, in order: its calls of [http.Head] and [http.Get]
    and the lines it sends on [output]. *)

Inductive request :=
  | Head (url : string)
  | Get (url : string).

Inductive action :=
  | ANet (r : request)
  | ASend (line : string).

#[global] Instance request_eq_dec : EqDecision request.
Proof. solve_decision. Defined.

#[global] Instance action_eq_dec : EqDecision action.
Proof. solve_decision. Defined.

Section Prober.
Context (env : Env).

Definition listObjects (bucket : string) : list action :=
  let apiURL := "https://www.googleapis.com/storage/v1/b/" +:+ bucket +:+ "/o" in
  ANet (Get apiURL) ::
  match http_Get env apiURL with
  | Err err =>
      [ASend ("ERROR: Could not list objects in " +:+ bucket +:+ " - " +:+ err)]
  | Ok resp =>
      if (StatusCode resp =? 200)%Z then
        match json_Decode env resp with
        | Err err =>
            [ASend ("ERROR: Could not parse object list for " +:+ bucket
                      +:+ " - " +:+ err)]
        | Ok objectList =>
            ASend ("    LISTABLE: " +:+ bucket) ::
            ((λ obj, ASend ("        - " +:+ Name obj)) <$> Items objectList)
        end
      else []
  end.

(** The body of [checkBucket]; its deferred [wg.Done()] is the [LDone] step
    of the scan below. *)
Definition checkBucket (bucket : string) (verbose : bool) : list action :=
  let bucketURL := "https://storage.googleapis.com/" +:+ bucket +:+ "/" in
  let apiURL := "https://www.googleapis.com/storage/v1/b/" +:+ bucket in
  ANet (Head apiURL) ::
  match http_Head env apiURL with
  | Err err =>
      [ASend ("ERROR: Could not connect to " +:+ apiURL +:+ " - " +:+ err)]
  | Ok resp =>
      if (StatusCode resp =? 404)%Z then []
      else if (StatusCode resp =? 403)%Z then
        let body := Body resp in
        if Contains body "Access denied" || Contains body "does not have"
        then []
        else [ASend ("EXISTS: " +:+ bucketURL)]
      else if (StatusCode resp =? 200)%Z then
        ASend ("EXISTS: " +:+ bucketURL) :: listObjects bucket
      else
        if verbose
        then [ASend ("UNKNOWN RESPONSE for " +:+ bucketURL +:+ ": "
                       +:+ fmt_d (StatusCode resp))]
        else []
  end.
End Prober.

(** The lines a call sends, and its calls of [http.Head] and [http.Get]. *)
Definition sends (acts : list action) : list string :=
  omap (λ a, match a with ASend line => Some line | ANet _ => None end) acts.

Definition requests (acts : list action) : list request :=
  omap (λ a, match a with ANet r => Some r | ASend _ => None end) acts.


(** ** Start-up of [main]: flags, wordlist, keywords, candidates, output file

    Standard output and early termination are threaded through a small
    writer-and-error monad: a computation prints events and either halts the
    program or returns a value. *)

Inductive event :=
  | EPrint (text : string)
  | EUsage.

Inductive fatal :=
  | MissingInput
  | HomeDirUnknown
  | DirUncreatable
  | DownloadFailed
  | FileUnreadable (path : string)
  | OutputUncreatable.

(** [os.Exit(code)], or a [return] from [main]. *)
Inductive halt :=
  | Exit (why : fatal) (code : Z)
  | Return (why : fatal).

Definition M (A : Type) : Type := (list event * (halt + A))%type.

Definition ret {A} (a : A) : M A := ([], inr a).

Definition bind {A B} (m : M A) (k : A → M B) : M B :=
  match m with
  | (evs, inl h) => (evs, inl h)
  | (evs, inr a) => let '(evs', r) := k a in (evs ++ evs', r)
  end.

Definition print (text : string) : M unit := ([EPrint text], inr tt).

Definition usage : M unit := ([EUsage], inr tt).

Definition stop {A} (h : halt) : M A := ([], inl h).

Notation "'let*' x ':=' m 'in' k" := (bind m (λ x, k))
  (at level 10, x name, m at level 100, k at level 200, only parsing).
Notation "m ';;' k" := (bind m (λ _, k))
  (at level 100, k at level 200, right associativity, only parsing).

Definition wordlistURL : string :=
  "https://raw.githubusercontent.com/Vulnpire/gcpenum/refs/heads/main/utils/wordlist.txt".

Definition wordlistFilename : string := ".config/gcpenum/words.txt".

Record Flags := {
  keyword : string;
  wordlist : string;
  outFile : string;
  subprocesses : Z;
  verbose : bool;
  keywordList : string
}.

(** What the scan is started with. *)
Record Scan := {
  scan_buckets : list string;
  scan_outputFile : option string;
  scan_limit : Z;
  scan_verbose : bool
}.

Section Setup.
Context (env : Env).

Definition downloadFile (url filePath : string) : option string :=
  match http_Get env url with
  | Err err => Some err
  | Ok resp =>
      if negb (StatusCode resp =? 200)%Z then
        Some ("failed to download file: " +:+ url +:+ " (status: "
                +:+ fmt_d (StatusCode resp) +:+ ")")
      else
        match BodyErr resp with
        | Some err => Some err
        | None =>
            match os_MkdirAll env (filepath_Dir env filePath) with
            | Some err => Some err
            | None => ioutil_WriteFile env filePath (Body resp)
            end
        end
  end.

Definition ensureWordlist : M string :=
  match os_UserHomeDir env with
  | Err err =>
      print ("ERROR: Unable to locate home directory: " +:+ err +:+ LF) ;;
      stop (Exit HomeDirUnknown 1)
  | Ok homeDir =>
      let wordlistPath := filepath_Join env homeDir wordlistFilename in
      if os_StatNotExist env wordlistPath then
        print ("Wordlist not found. Downloading to " +:+ wordlistPath
                 +:+ "..." +:+ LF) ;;
        let dir := filepath_Dir env wordlistPath in
        match os_MkdirAll env dir with
        | Some err =>
            print ("ERROR: Could not create directory " +:+ dir +:+ ": "
                     +:+ err +:+ LF) ;;
            stop (Exit DirUncreatable 1)
        | None =>
            match downloadFile wordlistURL wordlistPath with
            | Some err =>
                print ("ERROR: Failed to download wordlist: " +:+ err +:+ LF) ;;
                stop (Exit DownloadFailed 1)
            | None => ret wordlistPath
            end
        end
      else
        print ("Using existing wordlist at " +:+ wordlistPath +:+ LF) ;;
        ret wordlistPath
  end.

Definition readLinesFromFile (filePath : string) : M (list string) :=
  match os_ReadLines env filePath with
  | Err err =>
      print ("ERROR: Unable to read file: " +:+ err +:+ LF) ;;
      stop (Exit (FileUnreadable filePath) 1)
  | Ok lines => ret lines
  end.

Definition generatePermutations (keyword wordlistPath : string) : M (list string) :=
  let* suffixes := readLinesFromFile wordlistPath in
  ret (generate keyword suffixes).

(** The loop of [main] over the keywords: each keyword's candidates are
    appended to the master list. *)
Fixpoint collectBuckets (wordlistPath : string) (buckets keywords : list string)
    : M (list string) :=
  match keywords with
  | [] => ret buckets
  | kw :: keywords' =>
      let* perms := generatePermutations kw wordlistPath in
      collectBuckets wordlistPath (buckets ++ perms) keywords'
  end.

Definition summary (buckets keywords : nat) : string :=
  LF +:+ "Generated " +:+ fmt_d (Z.of_nat buckets) +:+ " bucket names from "
     +:+ fmt_d (Z.of_nat keywords) +:+ " keyword(s)." +:+ LF.

(** [main] up to the start of the scan. *)
Definition setup (f : Flags) : M Scan :=
  if String.eqb (keyword f) EmptyString && String.eqb (keywordList f) EmptyString then
    print ("ERROR: Provide either a keyword (-n) or a keyword list file (-l)"
             +:+ LF) ;;
    usage ;;
    stop (Return MissingInput)
  else
    let* wordlistPath :=
      if String.eqb (wordlist f) EmptyString then ensureWordlist else ret (wordlist f) in
    let* keywords :=
      if negb (String.eqb (keywordList f) EmptyString) then readLinesFromFile (keywordList f)
      else if negb (String.eqb (keyword f) EmptyString) then ret [keyword f]
      else ret [] in
    let* buckets := collectBuckets wordlistPath [] keywords in
    print (summary (length buckets) (length keywords)) ;;
    let* outputFile :=
      if negb (String.eqb (outFile f) EmptyString) then
        match os_Create env (outFile f) with
        | Some err =>
            print ("ERROR: Could not create output file: " +:+ err +:+ LF) ;;
            stop (Return OutputUncreatable)
        | None => ret (Some (outFile f))
        end
      else ret None in
    ret {| scan_buckets := buckets; scan_outputFile := outputFile;
           scan_limit := subprocesses f; scan_verbose := verbose f |}.
End Setup.

Definition isSummary (e : event) : bool :=
  match e with
  | EPrint text => HasPrefix text (LF +:+ "Generated ")
  | EUsage => false
  end.

Definition isError (e : event) : bool :=
  match e with
  | EPrint text => HasPrefix text "ERROR: "
  | EUsage => false
  end.

(** ** The concurrent scan of [main]

    One goroutine per candidate runs [sem <- struct{}{}], [checkBucket], then
    [<-sem]; [main] spawns them, starts the goroutine that drains [output],
    waits on the wait group, closes [output] and returns.  A state holds the
    program points, the number of tokens in [sem] and the wait-group counter;
    a label is one atomic step of one goroutine, and a scheduler is any
    sequence of enabled labels. *)

Inductive upc :=
  | UWait                       (* at [sem <- struct{}{}] *)
  | URun (todo : list action)   (* inside [checkBucket] *)
  | UHold                       (* [checkBucket] has returned; at [<-sem] *)
  | UEnd.

Record goroutine := { g_bucket : string; g_pc : upc }.

Inductive mpc :=
  | MSpawn (rest : list string) (* in the [for _, bucket := range buckets] loop *)
  | MWait                       (* the sink is running; at [wg.Wait()] *)
  | MClosed                     (* after [close(output)] *)
  | MExit.                      (* [main] has returned: the program is over *)

Record state := {
  main_pc : mpc;
  units : list goroutine;
  sem : nat;
  wg : nat
}.

Inductive label :=
  | LSpawn (i : nat) (bucket : string)  (* [wg.Add(1); go func(bucket)] *)
  | LSink                               (* [go func() { for line := range output ...] *)
  | LAcquire (i : nat)                  (* [sem <- struct{}{}] *)
  | LNet (i : nat) (r : request)        (* [http.Head] or [http.Get] *)
  | LSend (i : nat) (line : string)     (* [output <- line], received by the sink *)
  | LDone (i : nat)                     (* return of [checkBucket]: [wg.Done()] *)
  | LRelease (i : nat)                  (* [<-sem] *)
  | LClose                              (* [wg.Wait()] returns; [close(output)] *)
  | LExit.                              (* [main] returns *)

#[global] Instance upc_eq_dec : EqDecision upc.
Proof. solve_decision. Defined.

#[global] Instance mpc_eq_dec : EqDecision mpc.
Proof. solve_decision. Defined.

#[global] Instance label_eq_dec : EqDecision label.
Proof. solve_decision. Defined.

Definition init (buckets : list string) : state :=
  {| main_pc := MSpawn buckets; units := []; sem := 0; wg := 0 |}.

Definition setMain (st : state) (pc : mpc) : state :=
  {| main_pc := pc; units := units st; sem := sem st; wg := wg st |}.

(** A step of goroutine [i]: [k] gives its next program point and the new
    values of [sem] and [wg], or [None] when the step is not enabled.  Nothing
    runs once [main] has returned. *)
Definition withUnit (st : state) (i : nat)
    (k : goroutine → option (upc * nat * nat)) : option state :=
  match main_pc st with
  | MExit => None
  | _ =>
      match units st !! i with
      | None => None
      | Some g =>
          match k g with
          | None => None
          | Some (pc, s, w) =>
              Some {| main_pc := main_pc st;
                      units := <[i := {| g_bucket := g_bucket g; g_pc := pc |}]> (units st);
                      sem := s; wg := w |}
          end
      end
  end.

Section Scan.
Context (env : Env) (verbose : bool) (limit : nat).

(** [fire st l]: the state after step [l], when [l] is enabled in [st].
    A send on [output] needs the sink (started after the spawning loop, gone
    once [output] is closed); [sem] holds at most [limit] tokens;
    [wg.Wait()] returns at counter zero. *)
Definition fire (st : state) (l : label) : option state :=
  match l with
  | LSpawn i bucket =>
      match main_pc st with
      | MSpawn (b :: rest) =>
          if decide (i = length (units st) ∧ bucket = b) then
            Some {| main_pc := MSpawn rest;
                    units := units st ++ [{| g_bucket := b; g_pc := UWait |}];
                    sem := sem st; wg := S (wg st) |}
          else None
      | _ => None
      end
  | LSink =>
      match main_pc st with
      | MSpawn [] => Some (setMain st MWait)
      | _ => None
      end
  | LAcquire i =>
      withUnit st i (λ g,
        match g_pc g with
        | UWait =>
            if decide (sem st < limit)
            then Some (URun (checkBucket env (g_bucket g) verbose), S (sem st), wg st)
            else None
        | _ => None
        end)
  | LNet i r =>
      withUnit st i (λ g,
        match g_pc g with
        | URun (ANet r' :: todo) =>
            if decide (r = r') then Some (URun todo, sem st, wg st) else None
        | _ => None
        end)
  | LSend i line =>
      match main_pc st with
      | MWait =>
          withUnit st i (λ g,
            match g_pc g with
            | URun (ASend line' :: todo) =>
                if decide (line = line') then Some (URun todo, sem st, wg st) else None
            | _ => None
            end)
      | _ => None
      end
  | LDone i =>
      withUnit st i (λ g,
        match g_pc g, wg st with
        | URun [], S w => Some (UHold, sem st, w)
        | _, _ => None
        end)
  | LRelease i =>
      withUnit st i (λ g,
        match g_pc g, sem st with
        | UHold, S s => Some (UEnd, s, wg st)
        | _, _ => None
        end)
  | LClose =>
      match main_pc st, wg st with
      | MWait, 0 => Some (setMain st MClosed)
      | _, _ => None
      end
  | LExit =>
      match main_pc st with
      | MClosed => Some (setMain st MExit)
      | _ => None
      end
  end.

(** A schedule, run from a state. *)
Fixpoint exec (tr : list label) (st : state) : option state :=
  match tr with
  | [] => Some st
  | l :: tr' =>
      match fire st l with
      | Some st' => exec tr' st'
      | None => None
      end
  end.

(** [runs buckets tr st]: the scan of [buckets] can perform the steps [tr],
    in that order, and is then in [st]. *)
Definition runs (buckets : list string) (tr : list label) (st : state) : Prop :=
  exec tr (init buckets) = Some st.

(** What a goroutine still has to do inside [checkBucket]. *)
Definition pending (g : goroutine) : list action :=
  match g_pc g with
  | UWait => checkBucket env (g_bucket g) verbose
  | URun todo => todo
  | UHold | UEnd => []
  end.

(** Steps a goroutine, and [main], still have to take. *)
Definition unitSteps (g : goroutine) : nat :=
  match g_pc g with
  | UWait => 3 + length (checkBucket env (g_bucket g) verbose)
  | URun todo => 2 + length todo
  | UHold => 1
  | UEnd => 0
  end.

Definition mainSteps (pc : mpc) : nat :=
  match pc with
  | MSpawn rest =>
      3 + sum_list_with (λ b, 4 + length (checkBucket env b verbose)) rest
  | MWait => 2
  | MClosed => 1
  | MExit => 0
  end.

Definition stepsLeft (st : state) : nat :=
  mainSteps (main_pc st) + sum_list_with unitSteps (units st).
End Scan.

(** A goroutine holds a permit from its [sem <- struct{}{}] to its [<-sem]. *)
Definition holding (g : goroutine) : bool :=
  match g_pc g with
  | URun _ | UHold => true
  | UWait | UEnd => false
  end.

(** It counts in the wait group until its [wg.Done()]. *)
Definition active (g : goroutine) : bool :=
  match g_pc g with
  | UWait | URun _ => true
  | UHold | UEnd => false
  end.

Definition count (p : goroutine → bool) (gs : list goroutine) : nat :=
  sum_list_with (λ g, if p g then 1 else 0) gs.

Definition holders (st : state) : nat := count holding (units st).

(** The output stream of a schedule: the lines received by the sink, each
    with the goroutine that sent it. *)
Definition stream (tr : list label) : list (nat * string) :=
  omap (λ l, match l with LSend i line => Some (i, line) | _ => None end) tr.

Definition linesOf (i : nat) (s : list (nat * string)) : list string :=
  omap (λ e, if decide (e.1 = i) then Some e.2 else None) s.

(** The lines of goroutine [i] form one block of the stream. *)
Definition contiguous (i : nat) (s : list (nat * string)) : Prop :=
  ∃ pre mid post,
    s = pre ++ mid ++ post ∧
    Forall (λ e, e.1 ≠ i) pre ∧ Forall (λ e, e.1 = i) mid ∧ Forall (λ e, e.1 ≠ i) post.

(** The step a label belongs to. *)
Definition owner (l : label) : option nat :=
  match l with
  | LAcquire i | LNet i _ | LSend i _ | LDone i | LRelease i => Some i
  | LSpawn _ _ | LSink | LClose | LExit => None
  end.

(** ** The scan: the step relation, schedulers and invariants *)

(** The steps as a relation, for proofs by inversion: a step of goroutine [i]
    changes its program point, [sem] and [wg]. *)
Inductive ustep (env : Env) (verbose : bool) (limit : nat) (bucket : string) (m : mpc)
    (i : nat) : upc * nat * nat → label → upc * nat * nat → Prop :=
  | us_acquire s w :
      s < limit →
      ustep env verbose limit bucket m i
        (UWait, s, w) (LAcquire i) (URun (checkBucket env bucket verbose), S s, w)
  | us_net r todo s w :
      ustep env verbose limit bucket m i
        (URun (ANet r :: todo), s, w) (LNet i r) (URun todo, s, w)
  | us_send line todo s w :
      m = MWait →
      ustep env verbose limit bucket m i
        (URun (ASend line :: todo), s, w) (LSend i line) (URun todo, s, w)
  | us_done s w :
      ustep env verbose limit bucket m i (URun [], s, S w) (LDone i) (UHold, s, w)
  | us_release s w :
      ustep env verbose limit bucket m i (UHold, S s, w) (LRelease i) (UEnd, s, w).

Definition setUnit (st : state) (i : nat) (g : goroutine) (next : upc * nat * nat) : state :=
  {| main_pc := main_pc st;
     units := <[i := {| g_bucket := g_bucket g; g_pc := next.1.1 |}]> (units st);
     sem := next.1.2; wg := next.2 |}.

Inductive step (env : Env) (verbose : bool) (limit : nat) : state → label → state → Prop :=
  | step_spawn st b rest :
      main_pc st = MSpawn (b :: rest) →
      step env verbose limit st (LSpawn (length (units st)) b)
        {| main_pc := MSpawn rest;
           units := units st ++ [{| g_bucket := b; g_pc := UWait |}];
           sem := sem st; wg := S (wg st) |}
  | step_sink st :
      main_pc st = MSpawn [] → step env verbose limit st LSink (setMain st MWait)
  | step_close st :
      main_pc st = MWait → wg st = 0 → step env verbose limit st LClose (setMain st MClosed)
  | step_exit st :
      main_pc st = MClosed → step env verbose limit st LExit (setMain st MExit)
  | step_unit st i g l next :
      main_pc st ≠ MExit →
      units st !! i = Some g →
      ustep env verbose limit (g_bucket g) (main_pc st) i (g_pc g, sem st, wg st) l next →
      step env verbose limit st l (setUnit st i g next).

(** A scheduler picks [main] or a goroutine; [nextLabel] is the step that one
    takes next. *)
Inductive who :=
  | Main
  | Unit (i : nat).

Definition nextLabel (st : state) (w : who) : option label :=
  match w with
  | Main =>
      match main_pc st with
      | MSpawn (b :: _) => Some (LSpawn (length (units st)) b)
      | MSpawn [] => Some LSink
      | MWait => Some LClose
      | MClosed => Some LExit
      | MExit => None
      end
  | Unit i =>
      match units st !! i with
      | None => None
      | Some g =>
          match g_pc g with
          | UWait => Some (LAcquire i)
          | URun (ANet r :: _) => Some (LNet i r)
          | URun (ASend line :: _) => Some (LSend i line)
          | URun [] => Some (LDone i)
          | UHold => Some (LRelease i)
          | UEnd => None
          end
      end
  end.

(** The schedule a list of choices stands for. *)
Fixpoint labelsOf (env : Env) (verbose : bool) (limit : nat) (choices : list who)
    (st : state) : option (list label) :=
  match choices with
  | [] => Some []
  | w :: choices' =>
      match nextLabel st w with
      | None => None
      | Some l =>
          match fire env verbose limit st l with
          | None => None
          | Some st' =>
              match labelsOf env verbose limit choices' st' with
              | None => None
              | Some tr => Some (l :: tr)
              end
          end
      end
  end.

Definition isRun (g : goroutine) : bool :=
  match g_pc g with URun _ => true | _ => false end.

(** The state of [main] agrees with the candidates: the goroutines spawned so
    far and the candidates still to spawn make up [buckets]; after the close
    the wait group is at zero. *)
Definition mainOk (buckets : list string) (st : state) : Prop :=
  match main_pc st with
  | MSpawn rest => (g_bucket <$> units st) ++ rest = buckets
  | MWait => g_bucket <$> units st = buckets
  | MClosed | MExit => g_bucket <$> units st = buckets ∧ wg st = 0
  end.

(** [sem] holds one token per permit holder and [wg] counts the goroutines
    that have not yet called [wg.Done()]. *)
Definition countersOk (limit : nat) (st : state) : Prop :=
  sem st = holders st ∧ sem st ≤ limit ∧ wg st = count active (units st).

(** What the schedule so far says about goroutine [i]: nothing before its
    acquire (or before it is spawned); an acquire and no release while it holds
    a permit. *)
Definition unitTrace (tr : list label) (i : nat) (pc : option upc) : Prop :=
  match pc with
  | None | Some UWait => ∀ l, l ∈ tr → owner l ≠ Some i
  | Some (URun _) | Some UHold => LAcquire i ∈ tr ∧ LRelease i ∉ tr
  | Some UEnd => True
  end.

Definition traceOk (tr : list label) (st : state) : Prop :=
  ∀ i, unitTrace tr i (g_pc <$> units st !! i).

(** The lines of goroutine [i] received so far, followed by those it still
    has to send, are the lines of its [checkBucket]. *)
Definition streamOk (env : Env) (verbose : bool) (tr : list label) (st : state) : Prop :=
  ∀ i g, units st !! i = Some g →
    linesOf i (stream tr) ++ sends (pending env verbose g)
    = sends (checkBucket env (g_bucket g) verbose).

(** With one permit: the lines of each goroutine form one block, and the block
    of the goroutine inside [checkBucket] is the end of the stream. *)
Definition blocksOk (tr : list label) (st : state) : Prop :=
  ∀ i g, units st !! i = Some g →
    ∃ pre mid post,
      stream tr = pre ++ mid ++ post ∧
      Forall (λ e, e.1 ≠ i) pre ∧ Forall (λ e, e.1 = i) mid ∧
      Forall (λ e, e.1 ≠ i) post ∧
      (isRun g = true → post = []).

(** ** A mocked environment

    Test doubles in the style of the mocked endpoints of the testable
    properties: a few buckets with fixed answers, every other name absent. *)

Definition quoted (s : string) : string :=
  String (ascii_of_nat 34) s +:+ String (ascii_of_nat 34) EmptyString.

(** The two-item object index: an object with the key [items], whose elements
    carry the names [a.txt] and [b.txt]. *)
Definition twoItemIndex : string :=
  "{" +:+ quoted "items" +:+ ":[{" +:+ quoted "name" +:+ ":" +:+ quoted "a.txt"
      +:+ "},{" +:+ quoted "name" +:+ ":" +:+ quoted "b.txt" +:+ "}]}".

(** The answers to a HEAD: [net/http] hands no body over for a HEAD, so the
    bodies are empty whatever the endpoint would send for a GET. *)
Definition mockHead (url : string) : result Response :=
  if String.eqb url "https://www.googleapis.com/storage/v1/b/listable" then
    Ok {| StatusCode := 200; Body := EmptyString; BodyErr := None |}
  else if String.eqb url "https://www.googleapis.com/storage/v1/b/broken" then
    Ok {| StatusCode := 200; Body := EmptyString; BodyErr := None |}
  else if String.eqb url "https://www.googleapis.com/storage/v1/b/flaky" then
    Ok {| StatusCode := 200; Body := EmptyString; BodyErr := None |}
  else if String.eqb url "https://www.googleapis.com/storage/v1/b/restricted" then
    Ok {| StatusCode := 403; Body := EmptyString; BodyErr := None |}
  else if String.eqb url "https://www.googleapis.com/storage/v1/b/denied" then
    Ok {| StatusCode := 403; Body := EmptyString; BodyErr := None |}
  else if String.eqb url "https://www.googleapis.com/storage/v1/b/offline" then
    Err "dial tcp: i/o timeout"
  else
    Ok {| StatusCode := 404; Body := EmptyString; BodyErr := None |}.

(** The answers to a GET; the metadata endpoint of [denied] answers with the
    provider's denial message. *)
Definition mockGet (url : string) : result Response :=
  if String.eqb url "https://www.googleapis.com/storage/v1/b/listable/o" then
    Ok {| StatusCode := 200; Body := twoItemIndex; BodyErr := None |}
  else if String.eqb url "https://www.googleapis.com/storage/v1/b/broken/o" then
    Ok {| StatusCode := 200; Body := "<html>"; BodyErr := None |}
  else if String.eqb url "https://www.googleapis.com/storage/v1/b/denied" then
    Ok {| StatusCode := 403; Body := "Access denied."; BodyErr := None |}
  else
    Err "dial tcp: connection refused".

Definition mockDecode (resp : Response) : result ObjectListResponse :=
  if String.eqb (Body resp) twoItemIndex then
    Ok {| Items := [ {| Name := "a.txt" |}; {| Name := "b.txt" |} ] |}
  else
    Err "invalid character '<' looking for beginning of value".

Definition mockReadLines (path : string) : result (list string) :=
  if String.eqb path "words.txt" then Ok ["dev"; "prod"]
  else if String.eqb path "keywords.txt" then Ok ["acme"; "globex"]
  else Err ("open " +:+ path +:+ ": no such file or directory").

Definition mockCreate (path : string) : option string :=
  if String.eqb path "/proc/results.txt"
  then Some "open /proc/results.txt: permission denied"
  else None.

Definition mock : Env :=
  {| http_Head := mockHead;
     http_Get := mockGet;
     json_Decode := mockDecode;
     os_UserHomeDir := Ok "/home/user";
     filepath_Join := λ dir name, dir +:+ "/" +:+ name;
     filepath_Dir := λ _, "/home/user/.config/gcpenum";
     os_StatNotExist := λ _, false;
     os_MkdirAll := λ _, None;
     ioutil_WriteFile := λ _ _, None;
     os_ReadLines := mockReadLines;
     os_Create := mockCreate |}.

(** Two goroutines with two permits, taking turns. *)
Definition turnsOfTwo : list who :=
  [ Main; Main; Main; Unit 0; Unit 1;
    Unit 0; Unit 0; Unit 1; Unit 1; Unit 0; Unit 0; Unit 0; Unit 0;
    Unit 0; Unit 1; Unit 0; Unit 1; Main; Main ].

(** One goroutine whose probe fails, up to [close(output)], and then the
    return of [main]. *)
Definition turnsToClose : list who :=
  [ Main; Main; Unit 0; Unit 0; Unit 0; Unit 0; Main ].

Definition turnsToExit : list who := turnsToClose ++ [Main].

(** Two goroutines with one permit, one after the other. *)
Definition turnsInOrder : list who :=
  [ Main; Main; Main;
    Unit 1; Unit 1; Unit 1; Unit 1; Unit 1;
    Unit 0; Unit 0; Unit 0; Unit 0; Unit 0; Unit 0; Unit 0; Unit 0; Unit 0;
    Main; Main ].

Definition scheduleOf (env : Env) (verbose : bool) (limit : nat)
    (buckets : list string) (choices : list who) : list label :=
  default [] (labelsOf env verbose limit choices (init buckets)).

(** ** Readings of the claims about the lister and the start-up *)

(** A failed listing in the words of the claim: the request fails at
    transport level, or the body of the answer does not decode as JSON,
    whatever the status. *)
Definition listFailsAsWorded (env : Env) (bucket : string) : Prop :=
  match http_Get env ("https://www.googleapis.com/storage/v1/b/" +:+ bucket +:+ "/o") with
  | Err _ => True
  | Ok resp => ∃ err, json_Decode env resp = Err err
  end.

(** A provider in trouble: every HEAD is answered with 200 and every GET with
    500 and a page that is no JSON. *)
Definition mockOutage : Env :=
  {| http_Head := λ _, Ok {| StatusCode := 200; Body := EmptyString; BodyErr := None |};
     http_Get := λ _, Ok {| StatusCode := 500; Body := "<html>"; BodyErr := None |};
     json_Decode := mockDecode;
     os_UserHomeDir := Ok "/home/user";
     filepath_Join := λ dir name, dir +:+ "/" +:+ name;
     filepath_Dir := λ _, "/home/user/.config/gcpenum";
     os_StatNotExist := λ _, false;
     os_MkdirAll := λ _, None;
     ioutil_WriteFile := λ _ _, None;
     os_ReadLines := mockReadLines;
     os_Create := mockCreate |}.

(** What [net/http] guarantees for [http.Head]: the answer to a HEAD carries
    no body, so [ioutil.ReadAll] reads nothing from it. *)
Definition headNoBody (env : Env) : Prop :=
  ∀ url resp, http_Head env url = Ok resp → Body resp = EmptyString.

(** The fatal errors of the start-up, as the environment decides them.  The
    default wordlist is needed when [-w] is absent: the home directory must
    be known and, when the file is reported missing, its directory created
    and the download written. *)
Definition defaultWordlist (env : Env) : fatal + string :=
  match os_UserHomeDir env with
  | Err _ => inl HomeDirUnknown
  | Ok homeDir =>
      let path := filepath_Join env homeDir wordlistFilename in
      if os_StatNotExist env path then
        match os_MkdirAll env (filepath_Dir env path) with
        | Some _ => inl DirUncreatable
        | None =>
            match downloadFile env wordlistURL path with
            | Some _ => inl DownloadFailed
            | None => inr path
            end
        end
      else inr path
  end.

(** The first fatal error, if there is one: missing input; no default
    wordlist; an unreadable keyword file; an unreadable wordlist, which is
    opened once per keyword and so only when there is a keyword; an output
    file that cannot be created. *)
Definition firstFatal (env : Env) (f : Flags) : option fatal :=
  if String.eqb (keyword f) EmptyString && String.eqb (keywordList f) EmptyString
  then Some MissingInput
  else
    match (if String.eqb (wordlist f) EmptyString
           then defaultWordlist env else inr (wordlist f)) with
    | inl w => Some w
    | inr path =>
        match (if String.eqb (keywordList f) EmptyString
               then Ok [keyword f] else os_ReadLines env (keywordList f)) with
        | Err _ => Some (FileUnreadable (keywordList f))
        | Ok keywords =>
            match keywords, os_ReadLines env path with
            | _ :: _, Err _ => Some (FileUnreadable path)
            | _, _ =>
                if String.eqb (outFile f) EmptyString then None
                else
                  match os_Create env (outFile f) with
                  | Some _ => Some OutputUncreatable
                  | None => None
                  end
            end
        end
    end.

Definition why (h : halt) : fatal :=
  match h with
  | Exit w _ => w
  | Return w => w
  end.

#[global] Instance fatal_eq_dec : EqDecision fatal.
Proof. solve_decision. Defined.

(** A computation of the start-up that runs before the summary is printed:
    it prints no summary, and when it halts it has printed an error and the
    reason is not the output file. *)
Definition beforeSummary {A} (m : M A) : Prop :=
  existsb isSummary m.1 = false ∧
  match m.2 with
  | inl h => existsb isError m.1 = true ∧ why h ≠ OutputUncreatable
  | inr _ => True
  end.

(** When a computation halts, an error has been printed, and the summary has
    been printed before exactly when the reason is the output file. *)
Definition reportsFatal {A} (m : M A) : Prop :=
  ∀ h, m.2 = inl h →
    existsb isError m.1 = true ∧
    existsb isSummary m.1 = bool_decide (why h = OutputUncreatable).

(** [main]: the start-up, then the scan it configures.  [make] panics on a
    negative channel size, so a scan has a limit of at least zero. *)
Definition mainRuns (env : Env) (f : Flags) (tr : list label) (st : state) : Prop :=
  ∃ evs scan,
    setup env f = (evs, inr scan) ∧ (0 ≤ scan_limit scan)%Z ∧
    runs env (scan_verbose scan) (Z.to_nat (scan_limit scan)) (scan_buckets scan) tr st.

(** Flags with a keyword, a wordlist and an output file that cannot be
    created. *)
Definition flagsUncreatable : Flags :=
  {| keyword := "acme"; wordlist := "words.txt"; outFile := "/proc/results.txt";
     subprocesses := 10; verbose := false; keywordList := EmptyString |}.

(** ** Readings used for the further properties *)

(** The two URLs of [checkBucket] and the URL of [listObjects]. *)
Definition metadataURL (bucket : string) : string :=
  "https://www.googleapis.com/storage/v1/b/" +:+ bucket.

Definition publicURL (bucket : string) : string :=
  "https://storage.googleapis.com/" +:+ bucket +:+ "/".

Definition objectsURL (bucket : string) : string :=
  "https://www.googleapis.com/storage/v1/b/" +:+ bucket +:+ "/o".

(** The statuses [checkBucket] has a case for. *)
Definition knownStatus (n : Z) : bool :=
  (n =? 404)%Z || (n =? 403)%Z || (n =? 200)%Z.

(** The denial phrases looked for in a 403 body. *)
Definition denied (resp : Response) : bool :=
  Contains (Body resp) "Access denied" || Contains (Body resp) "does not have".

(** The flags with another [-n] keyword. *)
Definition setKeyword (f : Flags) (k : string) : Flags :=
  {| keyword := k; wordlist := wordlist f; outFile := outFile f;
     subprocesses := subprocesses f; verbose := verbose f;
     keywordList := keywordList f |}.

(** A computation that has printed no error when it returns a value. *)
Definition quietSuccess {A} (m : M A) : Prop :=
  ∀ a, m.2 = inr a → existsb isError m.1 = false.

(** How a halt leaves the program: [os.Exit(1)] for the errors of the wordlist
    and of the keyword file, a plain [return] for missing input and for an
    output file that cannot be created. *)
Definition exitStatus (h : halt) : Prop :=
  match why h with
  | MissingInput | OutputUncreatable => h = Return (why h)
  | _ => h = Exit (why h) 1
  end.

(** A mocked file system with an empty keyword file and no wordlist. *)
Definition mockNoKeywords : Env :=
  {| http_Head := mockHead;
     http_Get := mockGet;
     json_Decode := mockDecode;
     os_UserHomeDir := Ok "/home/user";
     filepath_Join := λ dir name, dir +:+ "/" +:+ name;
     filepath_Dir := λ _, "/home/user/.config/gcpenum";
     os_StatNotExist := λ _, false;
     os_MkdirAll := λ _, None;
     ioutil_WriteFile := λ _ _, None;
     os_ReadLines := λ path,
       if String.eqb path "none.txt" then Ok []
       else Err ("open " +:+ path +:+ ": no such file or directory");
     os_Create := mockCreate |}.

Definition flagsKeywordFile : Flags :=
  {| keyword := "ignored"; wordlist := "words.txt"; outFile := EmptyString;
     subprocesses := 10; verbose := false; keywordList := "keywords.txt" |}.

Definition flagsNoKeywords : Flags :=
  {| keyword := EmptyString; wordlist := "missing.txt"; outFile := EmptyString;
     subprocesses := 10; verbose := false; keywordList := "none.txt" |}.

Definition flagsNothing : Flags :=
  {| keyword := EmptyString; wordlist := EmptyString; outFile := EmptyString;
     subprocesses := 10; verbose := false; keywordList := EmptyString |}.

Definition flagsDefaultWordlist : Flags :=
  {| keyword := "acme"; wordlist := EmptyString; outFile := EmptyString;
     subprocesses := 10; verbose := false; keywordList := EmptyString |}.

(** A halt by [os.Exit(1)] for a reason other than missing input or the
    output file. *)
Definition exitsOne (h : halt) : Prop :=
  ∃ w, h = Exit w 1 ∧ w ≠ MissingInput ∧ w ≠ OutputUncreatable.

(** What goroutine [i] has done inside [checkBucket] according to a schedule:
    its requests and its sends, in their order. *)
Definition actsOf (i : nat) (tr : list label) : list action :=
  omap (λ l,
          match l with
          | LNet j r => if decide (j = i) then Some (ANet r) else None
          | LSend j line => if decide (j = i) then Some (ASend line) else None
          | _ => None
          end) tr.

(** What goroutine [i] has done so far, followed by what it still has to do,
    is its [checkBucket]. *)
Definition actsOk (env : Env) (verbose : bool) (tr : list label) (st : state) : Prop :=
  ∀ i g, units st !! i = Some g →
    actsOf i tr ++ pending env verbose g = checkBucket env (g_bucket g) verbose.

(** Without permits: every goroutine is at its acquire, only [main] has taken
    steps, and [main] has neither closed [output] nor returned. *)
Definition allWaiting (tr : list label) (st : state) : Prop :=
  (∀ i g, units st !! i = Some g → g_pc g = UWait)
  ∧ (∀ l, l ∈ tr → owner l = None)
  ∧ main_pc st ≠ MClosed ∧ main_pc st ≠ MExit.

(** The schedules of a scan without candidates. *)
Definition emptyScan (tr : list label) (st : state) : Prop :=
  units st = [] ∧
  ((tr = [] ∧ main_pc st = MSpawn [])
   ∨ (tr = [LSink] ∧ main_pc st = MWait)
   ∨ (tr = [LSink; LClose] ∧ main_pc st = MClosed)
   ∨ (tr = [LSink; LClose; LExit] ∧ main_pc st = MExit)).

(** What the schedule so far says about [main]: the sink is started when the
    spawning loop is left, and [output] is closed when [wg.Wait()] is left. *)
Definition mainTrace (tr : list label) (st : state) : Prop :=
  match main_pc st with
  | MSpawn _ => (LSink ∉ tr) ∧ (LClose ∉ tr)
  | MWait => LSink ∈ tr ∧ (LClose ∉ tr)
  | MClosed | MExit => LSink ∈ tr ∧ LClose ∈ tr
  end.

(** * Properties *)

(** ** Byte strings *)

Section StringFacts.
Implicit Types s t u old new : string.

Lemma append_cons c s t : String c s +:+ t = String c (s +:+ t).
Proof. reflexivity. Qed.

Lemma append_nil_l s : EmptyString +:+ s = s.
Proof. reflexivity. Qed.

Lemma append_nil_r s : s +:+ EmptyString = s.
Proof.
  induction s as [|c s IH]; [done |].
  by rewrite append_cons, IH.
Qed.

Lemma append_assoc s t u : (s +:+ t) +:+ u = s +:+ (t +:+ u).
Proof.
  induction s as [|c s IH]; [done |].
  by rewrite !append_cons, IH.
Qed.

Lemma append_inj_r s t u : s +:+ t = s +:+ u → t = u.
Proof.
  induction s as [|c s IH]; [done |].
  rewrite !append_cons. intros [= H]. auto.
Qed.

Lemma append_ne_self s c t : s ≠ s +:+ String c t.
Proof.
  intros H.
  assert (s +:+ EmptyString = s +:+ String c t) as H' by by rewrite append_nil_r.
  by apply append_inj_r in H'.
Qed.

Lemma HasPrefix_nil s : HasPrefix s EmptyString = true.
Proof. by destruct s. Qed.

Lemma HasPrefix_app s t : HasPrefix (s +:+ t) s = true.
Proof.
  induction s as [|c s IH]; [apply HasPrefix_nil |].
  rewrite append_cons. simpl. by rewrite Ascii.eqb_refl.
Qed.

Lemma Contains_HasPrefix s t : HasPrefix s t = true → Contains s t = true.
Proof. intros H. destruct s; simpl in *; by rewrite H. Qed.

Lemma Contains_cons c s t : Contains s t = true → Contains (String c s) t = true.
Proof. intros H. simpl. rewrite H. apply orb_true_r. Qed.

(** An occurrence anywhere is found. *)
Lemma Contains_app s t u : Contains (s +:+ t +:+ u) t = true.
Proof.
  induction s as [|c s IH].
  - rewrite append_nil_l. apply Contains_HasPrefix, HasPrefix_app.
  - rewrite append_cons. by apply Contains_cons.
Qed.

Lemma Contains_app_l t u : Contains (t +:+ u) t = true.
Proof. exact (Contains_app EmptyString t u). Qed.

Lemma Contains_app_r s t : Contains (s +:+ t) t = true.
Proof.
  replace (s +:+ t) with (s +:+ t +:+ EmptyString) by by rewrite append_nil_r.
  apply Contains_app.
Qed.

Lemma Contains_self t : Contains t t = true.
Proof. exact (Contains_app_r EmptyString t). Qed.
End StringFacts.

(** ** Name generator: duplicates *)

Section RemoveDuplicates.
Implicit Types (seen : gmap string bool) (result input l : list string).

Lemma seenOk_empty : seenOk ∅ [].
Proof.
  intros v. rewrite lookup_empty. simpl. split; [done |].
  intros H. by apply not_elem_of_nil in H.
Qed.

Lemma seenOk_insert seen result v :
  seenOk seen result → seenOk (<[v:=true]> seen) (result ++ [v]).
Proof.
  intros Hok w. rewrite elem_of_app, list_elem_of_singleton.
  specialize (Hok w).
  destruct (decide (v = w)) as [->|Hne].
  - rewrite lookup_insert_eq. simpl. tauto.
  - rewrite lookup_insert_ne by done. split; [tauto |].
    intros [? | ?]; [tauto | congruence].
Qed.

Lemma removeDuplicates_loop_spec input : ∀ seen result,
  seenOk seen result →
  removeDuplicates_loop seen result input
  = result ++ filter (λ y, y ∉ result) (firstOccurrences input).
Proof.
  induction input as [|v input IH]; intros seen result Hok; simpl.
  - by rewrite filter_nil, app_nil_r.
  - destruct (default false (seen !! v)) eqn:Hv; simpl.
    + apply Hok in Hv.
      rewrite IH by done. f_equal.
      rewrite filter_cons_False by tauto.
      rewrite list_filter_filter. apply list_filter_iff.
      intros y. split; [| tauto].
      intros Hy. split; [done |]. by intros ->.
    + assert (v ∉ result) as Hnin.
      { intros Hin. apply Hok in Hin. congruence. }
      rewrite IH by by apply seenOk_insert.
      rewrite <- app_assoc. f_equal. simpl.
      rewrite filter_cons_True by done. f_equal.
      rewrite list_filter_filter. apply list_filter_iff.
      intros y. rewrite not_elem_of_app, list_elem_of_singleton. tauto.
Qed.

Lemma filter_not_in_nil l : filter (λ y : string, y ∉ []) l = l.
Proof.
  induction l as [|x l IH]; [done |].
  rewrite filter_cons_True by apply not_elem_of_nil. by rewrite IH.
Qed.

(** [removeDuplicates] keeps the first occurrence of every string, in the
    order of the first occurrences. *)
Lemma removeDuplicates_firstOccurrences input :
  removeDuplicates input = firstOccurrences input.
Proof.
  unfold removeDuplicates.
  rewrite removeDuplicates_loop_spec by apply seenOk_empty.
  simpl. apply filter_not_in_nil.
Qed.

Lemma elem_of_firstOccurrences l x : x ∈ firstOccurrences l ↔ x ∈ l.
Proof.
  induction l as [|y l IH]; simpl; [done |].
  rewrite !elem_of_cons, list_elem_of_filter, IH.
  destruct (decide (x = y)); tauto.
Qed.

Lemma NoDup_firstOccurrences l : NoDup (firstOccurrences l).
Proof.
  induction l as [|y l IH]; simpl; [constructor |].
  apply NoDup_cons. split.
  - rewrite list_elem_of_filter. tauto.
  - by apply NoDup_filter.
Qed.

Lemma firstOccurrences_NoDup l : NoDup l → firstOccurrences l = l.
Proof.
  induction 1 as [|x l Hx Hl IH]; simpl; [done |].
  rewrite IH. f_equal. clear IH Hl.
  induction l as [|y l IHl]; [done |].
  apply not_elem_of_cons in Hx as [Hxy Hx].
  rewrite filter_cons_True by done. f_equal. by apply IHl.
Qed.
End RemoveDuplicates.

(** ** Name generator: the substitution of the placeholders *)

Section Templates.
Implicit Types k s x rest old new : string.

Lemma Contains_false_cons c x old :
  Contains (String c x) old = false →
  HasPrefix (String c x) old = false ∧ Contains x old = false.
Proof. simpl. intros H. by apply orb_false_elim in H. Qed.

(** A text without occurrence of [old] is left as it is. *)
Lemma replaceFrom_free old new k :
  Contains k old = false → replaceFrom old new 0 k = k.
Proof.
  induction k as [|c k IH]; [done |].
  intros [Hp Hc]%Contains_false_cons.
  cbn [replaceFrom]. rewrite Hp. f_equal. auto.
Qed.

(** When no occurrence of [old] starts inside [k], the scan passes over [k]. *)
Lemma replaceFrom_app_free old new rest k :
  (∀ k1 c k2, k = k1 +:+ String c k2 → HasPrefix (String c k2 +:+ rest) old = false) →
  replaceFrom old new 0 (k +:+ rest) = k +:+ replaceFrom old new 0 rest.
Proof.
  induction k as [|c k IH]; intros Hfree; [done |].
  rewrite !append_cons. cbn [replaceFrom].
  rewrite <- append_cons, (Hfree EmptyString c k) by done.
  f_equal. apply IH. intros k1 c' k2 ->.
  apply (Hfree (String c k1)). by rewrite append_cons.
Qed.

Lemma Contains_false_app x y old :
  Contains (x +:+ y) old = false → Contains y old = false.
Proof.
  induction x as [|c x IH]; [done |].
  rewrite append_cons. intros [_ H]%Contains_false_cons. auto.
Qed.

(** ["{suffix}"] has no border: an occurrence that starts inside [x] and is
    not inside [x] cannot end in the text that follows the keyword in a
    template. *)
Lemma no_straddle x rest :
  templateTail rest → x ≠ EmptyString →
  HasPrefix x "{suffix}" = false → HasPrefix (x +:+ rest) "{suffix}" = false.
Proof.
  intros Hrest Hx H.
  destruct x as [|c1 x]; [done |]. clear Hx.
  do 7 (destruct x as [|? x];
    [ clear H; destruct Hrest as [-> | [-> | [-> | ->]]];
      rewrite ?append_cons, ?append_nil_l; cbn [HasPrefix];
      repeat match goal with
             | |- context [Ascii.eqb ?a ?c] => is_var c; destruct (Ascii.eqb a c)
             end; reflexivity |]).
  rewrite !append_cons. cbn [HasPrefix] in *. exact H.
Qed.

Lemma free_of_suffix k rest :
  templateTail rest → Contains k "{suffix}" = false →
  ∀ k1 c k2, k = k1 +:+ String c k2 →
    HasPrefix (String c k2 +:+ rest) "{suffix}" = false.
Proof.
  intros Hrest Hk k1 c k2 ->.
  apply Contains_false_app, Contains_false_cons in Hk as [Hp _].
  by apply no_straddle.
Qed.

(** The six templates, for a keyword without the text ["{suffix}"]. *)
Lemma expandTemplate_free k s :
  Contains k "{suffix}" = false →
  expandTemplate k s <$> permutations = sixExpansions k s.
Proof.
  intros Hk. unfold permutations, sixExpansions, expandTemplate.
  cbn [fmap list_fmap].
  repeat f_equal.
  - change (ReplaceAll "{keyword}-{suffix}" "{keyword}" k) with (k +:+ "-{suffix}").
    unfold ReplaceAll.
    rewrite replaceFrom_app_free by (apply free_of_suffix; unfold templateTail; auto).
    f_equal. change (String "-" (s +:+ EmptyString) = String "-" s). by rewrite append_nil_r.
  - change (ReplaceAll "{suffix}-{keyword}" "{keyword}" k)
      with ("{suffix}-" +:+ (k +:+ EmptyString)).
    rewrite append_nil_r.
    change (ReplaceAll ("{suffix}-" +:+ k) "{suffix}" s)
      with (s +:+ String "-" (replaceFrom "{suffix}" s 0 k)).
    by rewrite replaceFrom_free.
  - change (ReplaceAll "{keyword}_{suffix}" "{keyword}" k) with (k +:+ "_{suffix}").
    unfold ReplaceAll.
    rewrite replaceFrom_app_free by (apply free_of_suffix; unfold templateTail; auto).
    f_equal. change (String "_" (s +:+ EmptyString) = String "_" s). by rewrite append_nil_r.
  - change (ReplaceAll "{suffix}_{keyword}" "{keyword}" k)
      with ("{suffix}_" +:+ (k +:+ EmptyString)).
    rewrite append_nil_r.
    change (ReplaceAll ("{suffix}_" +:+ k) "{suffix}" s)
      with (s +:+ String "_" (replaceFrom "{suffix}" s 0 k)).
    by rewrite replaceFrom_free.
  - change (ReplaceAll "{keyword}{suffix}" "{keyword}" k) with (k +:+ "{suffix}").
    unfold ReplaceAll.
    rewrite replaceFrom_app_free by (apply free_of_suffix; unfold templateTail; auto).
    f_equal. change (s +:+ EmptyString = s). by rewrite append_nil_r.
  - change (ReplaceAll "{suffix}{keyword}" "{keyword}" k)
      with ("{suffix}" +:+ (k +:+ EmptyString)).
    rewrite append_nil_r.
    change (ReplaceAll ("{suffix}" +:+ k) "{suffix}" s)
      with (s +:+ replaceFrom "{suffix}" s 0 k).
    by rewrite replaceFrom_free.
Qed.
End Templates.

(** ** Name generator: the candidates *)

Section Generate.
Implicit Types (k s c : string) (S : list string).

Lemma appendTemplates_app k acc s :
  appendTemplates k acc s = acc ++ (expandTemplate k s <$> permutations).
Proof.
  unfold appendTemplates, permutations. cbn [foldl fmap list_fmap].
  by rewrite <- !app_assoc.
Qed.

Lemma foldl_appendTemplates k S : ∀ acc,
  foldl (appendTemplates k) acc S
  = acc ++ (S ≫= λ s, expandTemplate k s <$> permutations).
Proof.
  induction S as [|s S IH]; intros acc; cbn [foldl].
  - by rewrite app_nil_r.
  - rewrite IH, appendTemplates_app, <- app_assoc. done.
Qed.

(** The two nested loops fill [buckets] suffix by suffix, and the result keeps
    the first occurrence of each entry. *)
Lemma generate_firstOccurrences k S :
  generate k S = firstOccurrences (rawBuckets k S).
Proof.
  unfold generate, rawBuckets.
  by rewrite removeDuplicates_firstOccurrences, foldl_appendTemplates.
Qed.

Lemma generate_NoDup k S : NoDup (generate k S).
Proof. rewrite generate_firstOccurrences. apply NoDup_firstOccurrences. Qed.

Lemma elem_of_generate k S c : c ∈ generate k S ↔ c ∈ rawBuckets k S.
Proof. rewrite generate_firstOccurrences. apply elem_of_firstOccurrences. Qed.

(** For a keyword without the text ["{suffix}"], every candidate is one of the
    six expansions over a suffix of the list, or a keyword-only form. *)
Lemma generate_forms k S c :
  Contains k "{suffix}" = false →
  c ∈ generate k S →
  (∃ s, s ∈ S ∧ c ∈ sixExpansions k s) ∨ c ∈ keywordForms k.
Proof.
  intros Hk. rewrite elem_of_generate. unfold rawBuckets.
  rewrite elem_of_app, list_elem_of_bind.
  intros [(s & Hc & Hs) | Hc]; [left | by right].
  exists s. split; [done |]. by rewrite <- expandTemplate_free.
Qed.

Lemma sixExpansions_Contains k s c : c ∈ sixExpansions k s → Contains c k = true.
Proof.
  unfold sixExpansions. rewrite !elem_of_cons, elem_of_nil.
  intros [-> | [-> | [-> | [-> | [-> | [-> | []]]]]]];
    first [ apply Contains_app_l | apply Contains_app_r
          | rewrite <- append_assoc; apply Contains_app_r ].
Qed.

Lemma keywordForms_Contains k c : c ∈ keywordForms k → Contains c k = true.
Proof.
  unfold keywordForms. rewrite !elem_of_cons, elem_of_nil.
  intros [-> | [-> | [-> | [-> | []]]]];
    first [ apply Contains_self | apply Contains_app_l ].
Qed.

Lemma keywordForms_NoDup k : NoDup (keywordForms k).
Proof.
  unfold keywordForms.
  repeat (apply NoDup_cons; split); try apply NoDup_nil_2;
    rewrite ?elem_of_cons, elem_of_nil; intros H;
    repeat (destruct H as [H | H]); try done;
    first [ by apply append_ne_self in H
          | by (symmetry in H; apply append_ne_self in H)
          | by apply append_inj_r in H ].
Qed.
End Generate.

(** ** Name generator: the claims *)

Example generate_acme :
  generate "acme" ["dev"; EmptyString]
  = [ "acme-dev"; "dev-acme"; "acme_dev"; "dev_acme"; "acmedev"; "devacme";
      "acme-"; "-acme"; "acme_"; "_acme"; "acme"; "acme.com"; "acme.net";
      "acme.org" ].
Proof. vm_compute. reflexivity. Qed.

(** Occurrences are replaced from the left and do not overlap; the inserted
    text is not searched again. *)
Example ReplaceAll_leftmost :
  ReplaceAll "aaa" "aa" "b" = "ba" ∧ ReplaceAll "a-a" "a" "aa" = "aa-aa".
Proof. split; reflexivity. Qed.

(** C5, at the input where the code leaves the claim: for the keyword
    [{suffix}] and the one-line wordlist [x], the candidates are deduplicated
    in first-occurrence order, but the second substitution also rewrites the
    keyword that the first one has just inserted, so the entry [x-x] is neither
    one of the six expansions of the keyword over [x] nor a keyword-only
    form. *)
Theorem generate_placeholder_keyword :
  generate "{suffix}" ["x"]
  = ["x-x"; "x_x"; "xx"; "{suffix}"; "{suffix}.com"; "{suffix}.net"; "{suffix}.org"]
  ∧ "x-x" ∈ generate "{suffix}" ["x"]
  ∧ "x-x" ∉ sixExpansions "{suffix}" "x" ++ keywordForms "{suffix}".
Proof.
  assert (generate "{suffix}" ["x"]
          = ["x-x"; "x_x"; "xx"; "{suffix}"; "{suffix}.com"; "{suffix}.net";
             "{suffix}.org"]) as Heq by (vm_compute; reflexivity).
  split; [done |]. split.
  - rewrite Heq. apply list_elem_of_here.
  - unfold sixExpansions, keywordForms. intros H.
    rewrite elem_of_app, !elem_of_cons, !elem_of_nil in H.
    repeat (destruct H as [H | H]); try done; vm_compute in H; discriminate.
Qed.

(** C6: with an empty suffix list the generator returns exactly the keyword,
    then the keyword with [.com], [.net] and [.org], four entries (the four
    forms are pairwise distinct for every keyword, the empty one included). *)
Theorem generate_no_suffixes (k : string) :
  generate k [] = [k; k +:+ ".com"; k +:+ ".net"; k +:+ ".org"]
  ∧ length (generate k []) ≤ 4.
Proof.
  assert (generate k [] = keywordForms k) as Heq.
  { rewrite generate_firstOccurrences.
    apply (firstOccurrences_NoDup (keywordForms k)), keywordForms_NoDup. }
  rewrite Heq. split; [done |]. simpl. lia.
Qed.

(** C7 fails as stated: the keywords [a] and [a.com] are distinct and share the
    candidate [a.com], already with an empty suffix list; so do [ab] and [a]
    over the suffix [b]. *)
Lemma generate_not_disjoint :
  "a" ≠ "a.com" ∧ ¬ disjointCandidates (generate "a" []) (generate "a.com" [])
  ∧ "ab" ≠ "a" ∧ ¬ disjointCandidates (generate "ab" ["b"]) (generate "a" ["b"]).
Proof.
  split; [done |]. split; [| split; [done |]].
  - intros H. apply (H "a.com").
    + vm_compute. apply list_elem_of_further, list_elem_of_here.
    + vm_compute. apply list_elem_of_here.
  - intros H. apply (H "ab").
    + vm_compute. do 6 apply list_elem_of_further. apply list_elem_of_here.
    + vm_compute. do 4 apply list_elem_of_further. apply list_elem_of_here.
Qed.

(** C7, amended: the keyword is embedded in each of its candidates, so a
    candidate shared by two keywords contains both of them (keywords without
    the placeholder text [{suffix}]). *)
Theorem generate_shared_candidate (k1 k2 : string) (S : list string) (c : string) :
  Contains k1 "{suffix}" = false →
  Contains k2 "{suffix}" = false →
  c ∈ generate k1 S → c ∈ generate k2 S →
  Contains c k1 = true ∧ Contains c k2 = true.
Proof.
  intros H1 H2 Hc1 Hc2.
  apply (generate_forms _ _ _ H1) in Hc1 as [(s1 & _ & Hc1) | Hc1];
    apply (generate_forms _ _ _ H2) in Hc2 as [(s2 & _ & Hc2) | Hc2];
    eauto using sixExpansions_Contains, keywordForms_Contains.
Qed.

Lemma generate_shared_candidate_witness :
  Contains "a.com" "a" = true ∧ Contains "a.com" "a.com" = true.
Proof.
  apply (generate_shared_candidate "a" "a.com" [] "a.com").
  - reflexivity.
  - reflexivity.
  - vm_compute. apply list_elem_of_further, list_elem_of_here.
  - vm_compute. apply list_elem_of_here.
Defined.

(** ** The scan: steps *)

Section Steps.
Context (env : Env) (verbose : bool) (limit : nat).
Implicit Types (st : state) (l : label) (tr : list label) (g : goroutine).

Lemma withUnit_Some st i k st' :
  withUnit st i k = Some st' →
  main_pc st ≠ MExit ∧
  ∃ g next, units st !! i = Some g ∧ k g = Some next ∧ st' = setUnit st i g next.
Proof.
  unfold withUnit, setUnit. intros H.
  destruct (units st !! i) as [g|] eqn:Hg; [| by destruct (main_pc st)].
  destruct (k g) as [[[pc s] w]|] eqn:Hk; [| by destruct (main_pc st)].
  split; [intros E; by rewrite E in H |].
  exists g, (pc, s, w). repeat split; [done |]. simpl.
  destruct (main_pc st) eqn:Hm; congruence.
Qed.

Lemma withUnit_intro st i k g next :
  main_pc st ≠ MExit → units st !! i = Some g → k g = Some next →
  withUnit st i k = Some (setUnit st i g next).
Proof.
  intros Hm Hg Hk. unfold withUnit, setUnit. rewrite Hg, Hk.
  destruct next as [[pc s] w]. by destruct (main_pc st).
Qed.

(** [fire] and the step relation agree. *)
Lemma fire_step st l st' : fire env verbose limit st l = Some st' → step env verbose limit st l st'.
Proof.
  destruct l as [i b| |i|i r|i line|i|i| |]; cbn [fire].
  - destruct (main_pc st) as [[|b' rest]| | |] eqn:Hm; try done.
    case_decide as Hd; [| done]. destruct Hd as [-> ->].
    intros [= <-]. by apply step_spawn.
  - destruct (main_pc st) as [[|b' rest]| | |] eqn:Hm; try done.
    intros [= <-]. by apply step_sink.
  - intros (Hm & g & next & Hg & Hk & ->)%withUnit_Some.
    apply step_unit; [done..|].
    destruct (g_pc g) eqn:Hpc; try done. case_decide; [| done].
    injection Hk as <-. by constructor.
  - intros (Hm & g & next & Hg & Hk & ->)%withUnit_Some.
    apply step_unit; [done..|].
    destruct (g_pc g) as [|[|[r'|] todo]| |] eqn:Hpc; try done.
    case_decide as Hd; [| done]. subst r'.
    injection Hk as <-. by constructor.
  - destruct (main_pc st) eqn:Hmw; try done.
    intros (Hm & g & next & Hg & Hk & ->)%withUnit_Some.
    apply step_unit; [done..|].
    destruct (g_pc g) as [|[|[|line'] todo]| |] eqn:Hpc; try done.
    case_decide as Hd; [| done]. subst line'.
    injection Hk as <-. rewrite Hmw. by constructor.
  - intros (Hm & g & next & Hg & Hk & ->)%withUnit_Some.
    apply step_unit; [done..|].
    destruct (g_pc g) as [|[|]| |] eqn:Hpc; try done.
    destruct (wg st) eqn:Hw; [done |].
    injection Hk as <-. by constructor.
  - intros (Hm & g & next & Hg & Hk & ->)%withUnit_Some.
    apply step_unit; [done..|].
    destruct (g_pc g) eqn:Hpc; try done.
    destruct (sem st) eqn:Hs; [done |].
    injection Hk as <-. by constructor.
  - destruct (main_pc st) eqn:Hm; try done.
    destruct (wg st) eqn:Hw; [| done].
    intros [= <-]. by apply step_close.
  - destruct (main_pc st) eqn:Hm; try done.
    intros [= <-]. by apply step_exit.
Qed.

Lemma ustep_fire st i g l next :
  main_pc st ≠ MExit → units st !! i = Some g →
  ustep env verbose limit (g_bucket g) (main_pc st) i (g_pc g, sem st, wg st) l next →
  fire env verbose limit st l = Some (setUnit st i g next).
Proof.
  intros Hm Hg Hu.
  inversion Hu as [s w Hlt Hpc|r todo s w Hpc|line todo s w Hmw Hpc|s w Hpc|s w Hpc];
    subst; cbn [fire]; rewrite ?Hmw;
    apply withUnit_intro; try done;
    rewrite <- ?Hpc, <- ?H, <- ?H0, <- ?H1; try done.
  - by rewrite decide_True.
  - by rewrite decide_True.
  - by rewrite decide_True.
Qed.

Lemma step_fire st l st' :
  step env verbose limit st l st' → fire env verbose limit st l = Some st'.
Proof.
  intros [st0 b rest Hm|st0 Hm|st0 Hm Hw|st0 Hm|st0 i g l0 next Hm Hg Hu].
  - cbn [fire]. rewrite Hm. by rewrite decide_True.
  - cbn [fire]. by rewrite Hm.
  - cbn [fire]. by rewrite Hm, Hw.
  - cbn [fire]. by rewrite Hm.
  - by apply ustep_fire.
Qed.

Lemma exec_app tr1 tr2 st :
  exec env verbose limit (tr1 ++ tr2) st
  = exec env verbose limit tr1 st ≫= exec env verbose limit tr2.
Proof.
  revert st. induction tr1 as [|l tr1 IH]; intros st; [done |].
  cbn [exec app]. destruct (fire env verbose limit st l); [apply IH | done].
Qed.

Lemma runs_snoc buckets tr l st' :
  runs env verbose limit buckets (tr ++ [l]) st' ↔
  ∃ st, runs env verbose limit buckets tr st ∧ fire env verbose limit st l = Some st'.
Proof.
  unfold runs. rewrite exec_app.
  destruct (exec env verbose limit tr (init buckets)) as [st|]; simpl.
  - destruct (fire env verbose limit st l) eqn:Hf; split.
    + intros [= <-]. eauto.
    + intros (st0 & [= <-] & Hf'). congruence.
    + done.
    + intros (st0 & [= <-] & Hf'). congruence.
  - split; [done |]. by intros (st0 & ? & _).
Qed.

(** Every prefix of a schedule is a schedule. *)
Lemma runs_prefix buckets tr1 tr2 st :
  runs env verbose limit buckets (tr1 ++ tr2) st →
  ∃ st1, runs env verbose limit buckets tr1 st1 ∧ exec env verbose limit tr2 st1 = Some st.
Proof.
  unfold runs. rewrite exec_app.
  destruct (exec env verbose limit tr1 (init buckets)) as [st1|]; [eauto | done].
Qed.

(** Induction over the schedules of a scan, one step at a time. *)
Lemma runs_ind buckets (P : list label → state → Prop) :
  P [] (init buckets) →
  (∀ tr st l st',
     runs env verbose limit buckets tr st → P tr st →
     step env verbose limit st l st' → P (tr ++ [l]) st') →
  ∀ tr st, runs env verbose limit buckets tr st → P tr st.
Proof.
  intros Hinit Hstep tr.
  induction tr as [|l tr IH] using rev_ind; intros st Hr.
  - injection Hr as <-. done.
  - apply runs_snoc in Hr as (st0 & Hr & Hf).
    eapply Hstep; eauto using fire_step.
Qed.
End Steps.

(** ** The scan: counting goroutines *)

Section Counting.
Implicit Types (g : goroutine) (gs : list goroutine) (p : goroutine → bool).

Lemma sum_list_with_insert (f : goroutine → nat) gs i g g' :
  gs !! i = Some g →
  sum_list_with f (<[i:=g']> gs) + f g = sum_list_with f gs + f g'.
Proof.
  revert i. induction gs as [|h gs IH]; intros [|i] Hg; simplify_eq/=; [lia |].
  specialize (IH i Hg). lia.
Qed.

Lemma count_insert p gs i g g' :
  gs !! i = Some g →
  count p (<[i:=g']> gs) + (if p g then 1 else 0)
  = count p gs + (if p g' then 1 else 0).
Proof. apply (sum_list_with_insert (λ g, if p g then 1 else 0)). Qed.

Lemma count_app p gs1 gs2 : count p (gs1 ++ gs2) = count p gs1 + count p gs2.
Proof. apply sum_list_with_app. Qed.

Lemma count_lookup p gs i g : gs !! i = Some g → p g = true → 1 ≤ count p gs.
Proof.
  revert i. induction gs as [|h gs IH]; intros [|i] Hg Hp; simplify_eq/=.
  - unfold count. simpl. rewrite Hp. lia.
  - specialize (IH i Hg Hp). unfold count in *. simpl. lia.
Qed.

Lemma count_zero p gs i g : count p gs = 0 → gs !! i = Some g → p g = false.
Proof.
  intros Hz Hg. destruct (p g) eqn:Hp; [| done].
  pose proof (count_lookup p gs i g Hg Hp). lia.
Qed.

Lemma count_pos p gs : 0 < count p gs → ∃ i g, gs !! i = Some g ∧ p g = true.
Proof.
  induction gs as [|h gs IH]; unfold count; simpl; [lia |].
  destruct (p h) eqn:Hp.
  - intros _. by exists 0, h.
  - intros Hpos. destruct IH as (i & g & Hg & Hpg); [done |].
    by exists (S i), g.
Qed.

(** Two different goroutines with the property count for two. *)
Lemma count_two p gs i j gi gj :
  i ≠ j → gs !! i = Some gi → gs !! j = Some gj →
  p gi = true → p gj = true → 2 ≤ count p gs.
Proof.
  intros Hij Hi Hj Hpi Hpj.
  rewrite <- (take_drop_middle gs i gi Hi), count_app.
  change (gi :: drop (S i) gs) with ([gi] ++ drop (S i) gs). rewrite count_app.
  assert (count p [gi] = 1) as -> by (unfold count; simpl; rewrite Hpi; lia).
  destruct (decide (j < i)) as [Hlt|Hge].
  - assert (1 ≤ count p (take i gs)); [| lia].
    apply (count_lookup p _ j gj); [| done]. by rewrite lookup_take_lt.
  - assert (1 ≤ count p (drop (S i) gs)); [| lia].
    apply (count_lookup p _ (j - S i) gj); [| done].
    rewrite lookup_drop. rewrite <- Hj. f_equal. lia.
Qed.
End Counting.

(** ** The scan: counters and program points *)

Section Counters.
Context (env : Env) (verbose : bool) (limit : nat).
Implicit Types (st : state) (l : label) (tr : list label) (g : goroutine).

Lemma countersOk_step st l st' :
  step env verbose limit st l st' → countersOk limit st → countersOk limit st'.
Proof.
  unfold countersOk, holders.
  intros [st0 b rest Hm|st0 Hm|st0 Hm Hw|st0 Hm|st0 i g l0 next Hm Hg Hu] (Hs & Hle & Hw');
    cbn [units sem wg setMain]; try done.
  - rewrite !count_app. unfold count at 2 4. simpl. lia.
  - destruct g as [b pc]. destruct next as [[pc' s'] w'].
    pose proof (count_insert holding (units st0) i _
                  {| g_bucket := b; g_pc := pc' |} Hg) as Hh.
    pose proof (count_insert active (units st0) i _
                  {| g_bucket := b; g_pc := pc' |} Hg) as Ha.
    unfold setUnit. cbn [units sem wg g_bucket g_pc fst snd] in *.
    inversion Hu; subst; unfold holding, active in *; cbn [g_pc] in *; lia.
Qed.

Lemma countersOk_runs buckets tr st :
  runs env verbose limit buckets tr st → countersOk limit st.
Proof.
  revert tr st. apply runs_ind.
  - unfold countersOk, holders, count. simpl. lia.
  - eauto using countersOk_step.
Qed.
End Counters.

(** ** The scan: the barrier, the bound on the steps, and progress *)

Section Progress.
Context (env : Env) (verbose : bool) (limit : nat).
Implicit Types (st : state) (l : label) (tr : list label) (g : goroutine).

Lemma fmap_bucket_insert (gs : list goroutine) i g pc :
  gs !! i = Some g →
  g_bucket <$> <[i := {| g_bucket := g_bucket g; g_pc := pc |}]> gs = g_bucket <$> gs.
Proof.
  intros Hg. rewrite list_fmap_insert. apply list_insert_id.
  by rewrite list_lookup_fmap, Hg.
Qed.

Lemma mainOk_step buckets st l st' :
  step env verbose limit st l st' → mainOk buckets st → mainOk buckets st'.
Proof.
  unfold mainOk.
  intros [st0 b rest Hm|st0 Hm|st0 Hm Hw|st0 Hm|st0 i g l0 next Hm Hg Hu];
    cbn [main_pc units wg setMain setUnit]; rewrite ?Hm.
  - intros <-. by rewrite fmap_app, <- app_assoc.
  - by rewrite app_nil_r.
  - done.
  - done.
  - rewrite (fmap_bucket_insert _ _ _ _ Hg).
    destruct (main_pc st0); try done.
    intros [Hb Hw]. split; [done |]. inversion Hu; subst; simpl; congruence.
Qed.

Lemma mainOk_runs buckets tr st :
  runs env verbose limit buckets tr st → mainOk buckets st.
Proof.
  revert tr st. apply runs_ind.
  - unfold mainOk. done.
  - eauto using mainOk_step.
Qed.

(** Each step uses up one of the steps left. *)
Lemma stepsLeft_step st l st' :
  step env verbose limit st l st' →
  stepsLeft env verbose st = S (stepsLeft env verbose st').
Proof.
  unfold stepsLeft.
  intros [st0 b rest Hm|st0 Hm|st0 Hm Hw|st0 Hm|st0 i g l0 next Hm Hg Hu];
    cbn [main_pc units setMain setUnit]; rewrite ?Hm; cbn [mainSteps sum_list_with];
    try lia.
  - rewrite sum_list_with_app. cbn [sum_list_with].
    change (unitSteps env verbose {| g_bucket := b; g_pc := UWait |})
      with (3 + length (checkBucket env b verbose)).
    lia.
  - destruct g as [b pc]. destruct next as [[pc' s'] w'].
    pose proof (sum_list_with_insert (unitSteps env verbose) (units st0) i _
                  {| g_bucket := b; g_pc := pc' |} Hg) as Hs.
    cbn [g_bucket g_pc fst snd] in *.
    set (total := sum_list_with (unitSteps env verbose)) in *.
    inversion Hu; subst; unfold unitSteps in Hs; cbn [g_pc g_bucket length] in Hs; lia.
Qed.

Lemma stepsLeft_runs buckets tr st :
  runs env verbose limit buckets tr st →
  length tr + stepsLeft env verbose st = stepsLeft env verbose (init buckets).
Proof.
  revert tr st. apply runs_ind; [done |].
  intros tr st l st' _ IH Hstep. apply stepsLeft_step in Hstep.
  rewrite length_app. simpl. lia.
Qed.

(** A goroutine at [<-sem] finds a token. *)
Lemma release_enabled st i g :
  countersOk limit st → main_pc st ≠ MExit →
  units st !! i = Some g → g_pc g = UHold →
  ∃ st', fire env verbose limit st (LRelease i) = Some st'.
Proof.
  intros (Hs & _ & _) Hm Hg Hpc.
  assert (1 ≤ holders st) as Hh.
  { apply (count_lookup holding _ i g Hg). unfold holding. by rewrite Hpc. }
  destruct (sem st) as [|s] eqn:Hsem; [lia |].
  eexists. apply ustep_fire with (g := g); [done..|].
  rewrite Hpc, Hsem. constructor.
Qed.

(** Unless [main] has returned, some step is enabled: the scan cannot block. *)
Lemma progress st :
  1 ≤ limit → countersOk limit st → main_pc st ≠ MExit →
  ∃ l st', fire env verbose limit st l = Some st'.
Proof.
  intros Hlim Hc Hm. pose proof Hc as (Hs & Hle & Hw).
  destruct (main_pc st) as [[|b rest]| | |] eqn:Hmain; [| | | | done].
  - exists LSink. eexists. apply step_fire. by constructor.
  - exists (LSpawn (length (units st)) b). eexists. apply step_fire. by constructor.
  - destruct (wg st) as [|w] eqn:Hwg.
    { exists LClose. eexists. apply step_fire. by constructor. }
    destruct (count isRun (units st)) as [|n] eqn:Hrun.
    + destruct (count_pos active (units st)) as (i & g & Hg & Ha); [lia |].
      pose proof (count_zero isRun _ i g Hrun Hg) as Hnr.
      assert (g_pc g = UWait) as Hpc.
      { unfold active, isRun in *. by destruct (g_pc g). }
      destruct (decide (sem st < limit)) as [Hlt|Hge].
      * exists (LAcquire i). eexists. apply ustep_fire with (g := g); [by rewrite Hmain | done |].
        rewrite Hpc. by constructor.
      * destruct (count_pos holding (units st)) as (j & h & Hh & Hho);
          [unfold holders in Hs; lia |].
        pose proof (count_zero isRun _ j h Hrun Hh) as Hnr'.
        assert (g_pc h = UHold) as Hpc'.
        { unfold holding, isRun in *. by destruct (g_pc h). }
        exists (LRelease j). apply (release_enabled st j h); [done | by rewrite Hmain | done..].
    + destruct (count_pos isRun (units st)) as (i & g & Hg & Hr); [lia |].
      unfold isRun in Hr. destruct (g_pc g) as [|[|[r|line] todo]| |] eqn:Hpc; try done.
      * exists (LDone i). eexists. apply ustep_fire with (g := g); [by rewrite Hmain | done |].
        rewrite Hpc, Hwg. constructor.
      * exists (LNet i r). eexists. apply ustep_fire with (g := g); [by rewrite Hmain | done |].
        rewrite Hpc. constructor.
      * exists (LSend i line). eexists. apply ustep_fire with (g := g); [by rewrite Hmain | done |].
        rewrite Hpc, Hmain. by constructor.
  - exists LExit. eexists. apply step_fire. by constructor.
Qed.

(** After [close(output)] every goroutine has returned from [checkBucket]. *)
Lemma closed_all_done buckets st i g :
  countersOk limit st → mainOk buckets st →
  main_pc st = MClosed ∨ main_pc st = MExit →
  units st !! i = Some g → g_pc g = UHold ∨ g_pc g = UEnd.
Proof.
  intros (_ & _ & Hw) Hmain Hm Hg.
  assert (wg st = 0) as Hz.
  { unfold mainOk in Hmain. destruct Hm as [Hm | Hm]; rewrite Hm in Hmain; tauto. }
  rewrite Hz in Hw. symmetry in Hw.
  pose proof (count_zero active _ i g Hw Hg) as Ha.
  unfold active in Ha. destruct (g_pc g); auto; done.
Qed.
End Progress.

(** ** The scan: what a schedule records *)

Section Trace.
Context (env : Env) (verbose : bool) (limit : nat).
Implicit Types (st : state) (l : label) (tr : list label) (g : goroutine).

Lemma ustep_owner bucket m i cur l next :
  ustep env verbose limit bucket m i cur l next → owner l = Some i.
Proof. by intros []. Qed.

Lemma lookup_snoc_unit (gs : list goroutine) g i :
  (gs ++ [g]) !! i
  = if decide (i = length gs) then Some g else gs !! i.
Proof.
  case_decide as Hi.
  - subst. by rewrite lookup_app_r, Nat.sub_diag.
  - destruct (decide (i < length gs)).
    + by rewrite lookup_app_l.
    + rewrite lookup_app_r by lia.
      rewrite (lookup_ge_None_2 gs) by lia.
      destruct (i - length gs) as [|k] eqn:Hk; [lia | done].
Qed.

(** A step of somebody else leaves the record of goroutine [i] as it is. *)
Lemma unitTrace_other tr i pc l :
  owner l ≠ Some i → unitTrace tr i pc → unitTrace (tr ++ [l]) i pc.
Proof.
  intros Ho. destruct pc as [[| | |]|]; cbn [unitTrace];
    rewrite ?elem_of_app, ?list_elem_of_singleton; try done.
  - intros H l' [Hl | ->%list_elem_of_singleton]%elem_of_app; auto.
  - intros [Ha Hr]. split; [auto |]. intros [? | <-]; auto.
  - intros [Ha Hr]. split; [auto |]. intros [? | <-]; auto.
  - intros H l' [Hl | ->%list_elem_of_singleton]%elem_of_app; auto.
Qed.

Lemma traceOk_step tr st l st' :
  step env verbose limit st l st' → traceOk tr st → traceOk (tr ++ [l]) st'.
Proof.
  intros Hstep Hok i. specialize (Hok i).
  destruct Hstep as [st0 b rest Hm|st0 Hm|st0 Hm Hw|st0 Hm|st0 i0 g l0 next Hm Hg Hu];
    cbn [units setMain setUnit]; try by apply unitTrace_other.
  - rewrite lookup_snoc_unit. case_decide as Hi; [| by apply unitTrace_other].
    subst i. rewrite (lookup_ge_None_2 (units st0)) in Hok by lia.
    by apply unitTrace_other.
  - pose proof (ustep_owner _ _ _ _ _ _ Hu) as Ho.
    destruct (decide (i = i0)) as [->|Hne].
    + rewrite list_lookup_insert_eq by by eapply lookup_lt_Some.
      rewrite Hg in Hok. cbn [fmap option_fmap option_map g_pc] in *.
      inversion Hu as [s w Hlt Hpc|r todo s w Hpc|line todo s w Hmw Hpc|s w Hpc|s w Hpc];
        subst; cbn [fst]; rewrite <- Hpc in Hok; cbn [unitTrace] in *;
        rewrite ?elem_of_app, ?list_elem_of_singleton; try done.
      * split; [by right |]. intros [Hr | ?]; [| done]. by apply Hok in Hr.
      * destruct Hok as [Ha Hr]. split; [auto |]. intros [? | ?]; [auto | done].
      * destruct Hok as [Ha Hr]. split; [auto |]. intros [? | ?]; [auto | done].
      * destruct Hok as [Ha Hr]. split; [auto |]. intros [? | ?]; [auto | done].
    + rewrite list_lookup_insert_ne by done.
      apply unitTrace_other; [congruence | done].
Qed.

Lemma traceOk_runs buckets tr st :
  runs env verbose limit buckets tr st → traceOk tr st.
Proof.
  revert tr st. apply runs_ind.
  - intros i. simpl. intros l Hl. by apply elem_of_nil in Hl.
  - eauto using traceOk_step.
Qed.
End Trace.

(** ** The scan: the output stream *)

Section Stream.
Context (env : Env) (verbose : bool) (limit : nat).
Implicit Types (st : state) (l : label) (tr : list label) (g : goroutine).
Implicit Types (s : list (nat * string)).

Lemma stream_snoc tr l :
  stream (tr ++ [l])
  = stream tr ++ match l with LSend i line => [(i, line)] | _ => [] end.
Proof. unfold stream. rewrite omap_app. by destruct l. Qed.

Lemma stream_snoc_silent tr l :
  (∀ i line, l ≠ LSend i line) → stream (tr ++ [l]) = stream tr.
Proof.
  intros Hl. rewrite stream_snoc.
  destruct l; rewrite ?app_nil_r; try done. by destruct (Hl i line).
Qed.

Lemma linesOf_app i s1 s2 : linesOf i (s1 ++ s2) = linesOf i s1 ++ linesOf i s2.
Proof. apply omap_app. Qed.

Lemma linesOf_own i line : linesOf i [(i, line)] = [line].
Proof. unfold linesOf. simpl. by rewrite decide_True. Qed.

Lemma linesOf_other i j line : j ≠ i → linesOf i [(j, line)] = [].
Proof. intros Hne. unfold linesOf. simpl. by rewrite decide_False. Qed.

Lemma linesOf_cons i e s :
  linesOf i (e :: s) = (if decide (e.1 = i) then [e.2] else []) ++ linesOf i s.
Proof. unfold linesOf. simpl. by case_decide. Qed.

Lemma linesOf_none i s : Forall (λ e, e.1 ≠ i) s → linesOf i s = [].
Proof.
  induction 1 as [|e s He Hs IH]; [done |].
  by rewrite linesOf_cons, decide_False, IH.
Qed.

Lemma stream_no_owner tr i :
  (∀ l, l ∈ tr → owner l ≠ Some i) → Forall (λ e, e.1 ≠ i) (stream tr).
Proof.
  induction tr as [|l tr IH]; intros H; [constructor |].
  assert (Forall (λ e, e.1 ≠ i) (stream tr)) as IH'.
  { apply IH. intros l' Hl'. apply H. by right. }
  pose proof (H l (list_elem_of_here _ _)) as Hl.
  unfold stream in *. destruct l; simpl; try done.
  constructor; [| done]. simpl in *. congruence.
Qed.

Lemma ustep_sends bucket m i pc sw l pc' sw' :
  ustep env verbose limit bucket m i (pc, sw.1, sw.2) l (pc', sw'.1, sw'.2) →
  linesOf i (match l with LSend j line => [(j, line)] | _ => [] end)
  ++ sends (pending env verbose {| g_bucket := bucket; g_pc := pc' |})
  = sends (pending env verbose {| g_bucket := bucket; g_pc := pc |}).
Proof.
  inversion 1; subst; try done. cbn [pending g_pc sends omap].
  by rewrite linesOf_own.
Qed.

Lemma streamOk_step tr st l st' :
  step env verbose limit st l st' → traceOk tr st →
  streamOk env verbose tr st → streamOk env verbose (tr ++ [l]) st'.
Proof.
  intros Hstep Htr Hok i h.
  destruct Hstep as [st0 b rest Hm|st0 Hm|st0 Hm Hw|st0 Hm|st0 i0 g l0 next Hm Hg Hu];
    cbn [units setMain setUnit]; rewrite ?stream_snoc_silent by done; try apply Hok.
  - rewrite lookup_snoc_unit. case_decide as Hi; [| apply Hok].
    intros [= <-]. subst i. specialize (Htr (length (units st0))).
    rewrite (lookup_ge_None_2 (units st0)) in Htr by lia.
    by rewrite linesOf_none by by apply stream_no_owner.
  - destruct (decide (i = i0)) as [->|Hne].
    + rewrite list_lookup_insert_eq by by eapply lookup_lt_Some.
      intros [= <-]. specialize (Hok i0 g Hg).
      destruct g as [b pc]. destruct next as [[pc' s'] w'].
      cbn [g_bucket g_pc fst snd] in *. rewrite <- Hok.
      rewrite stream_snoc, linesOf_app, <- app_assoc. f_equal.
      apply (ustep_sends b (main_pc st0) i0 pc (sem st0, wg st0) l0 pc' (s', w')).
      exact Hu.
    + rewrite list_lookup_insert_ne by done. intros Hh.
      rewrite <- (Hok i h Hh), stream_snoc, linesOf_app, <- app_assoc. f_equal.
      inversion Hu; subst; try done. by rewrite linesOf_other.
Qed.

Lemma streamOk_runs buckets tr st :
  runs env verbose limit buckets tr st → streamOk env verbose tr st.
Proof.
  revert tr st. apply runs_ind.
  - intros i g Hg. done.
  - eauto using streamOk_step, traceOk_runs.
Qed.
End Stream.

(** ** The scan with one permit: blocks *)

Section Blocks.
Context (env : Env) (verbose : bool).
Implicit Types (st : state) (l : label) (tr : list label) (g : goroutine).

Lemma isRun_holding g : isRun g = true → holding g = true.
Proof. unfold isRun, holding. by destruct (g_pc g). Qed.

(** With one permit, two goroutines are never inside [checkBucket] together. *)
Lemma one_runner st i j gi gj :
  countersOk 1 st → units st !! i = Some gi → units st !! j = Some gj →
  isRun gi = true → isRun gj = true → i = j.
Proof.
  intros (Hs & Hle & _) Hi Hj Hri Hrj.
  destruct (decide (i = j)) as [|Hne]; [done |].
  pose proof (count_two holding (units st) i j gi gj Hne Hi Hj
                (isRun_holding _ Hri) (isRun_holding _ Hrj)).
  unfold holders in Hs. lia.
Qed.

Lemma blocksOk_step tr st l st' :
  step env verbose 1 st l st' → traceOk tr st → countersOk 1 st →
  blocksOk tr st → blocksOk (tr ++ [l]) st'.
Proof.
  intros Hstep Htr Hc Hok i h.
  destruct Hstep as [st0 b rest Hm|st0 Hm|st0 Hm Hw|st0 Hm|st0 i0 g l0 next Hm Hg Hu];
    cbn [units setMain setUnit]; rewrite ?stream_snoc_silent by done; try apply Hok.
  - rewrite lookup_snoc_unit. case_decide as Hi; [| apply Hok].
    intros [= <-]. subst i. specialize (Htr (length (units st0))).
    rewrite (lookup_ge_None_2 (units st0)) in Htr by lia.
    exists (stream tr), [], []. rewrite !app_nil_r.
    repeat split; auto using stream_no_owner.
  - destruct (decide (i = i0)) as [->|Hne].
    + rewrite list_lookup_insert_eq by by eapply lookup_lt_Some.
      intros [= <-]. destruct (Hok i0 g Hg) as (pre & mid & post & Hs & Hpre & Hmid & Hpost & Hrun).
      specialize (Htr i0). rewrite Hg in Htr.
      destruct g as [b pc]. destruct next as [[pc' s'] w'].
      unfold isRun in *. cbn [g_bucket g_pc fst snd fmap option_fmap option_map] in *.
      inversion Hu; subst; cbn [unitTrace] in *.
      * rewrite stream_snoc_silent by done.
        exists (stream tr), [], []. rewrite !app_nil_r.
        repeat split; auto using stream_no_owner.
      * rewrite stream_snoc_silent by done. exists pre, mid, post. repeat split; auto.
      * rewrite stream_snoc, Hs, (Hrun eq_refl), !app_nil_r.
        exists pre, (mid ++ [(i0, line)]), []. rewrite app_nil_r, app_assoc.
        repeat split; auto. apply Forall_app. split; [done |]. by constructor.
      * rewrite stream_snoc_silent by done. exists pre, mid, post. repeat split; auto.
      * rewrite stream_snoc_silent by done. exists pre, mid, post. repeat split; auto.
    + rewrite list_lookup_insert_ne by done. intros Hh.
      destruct (Hok i h Hh) as (pre & mid & post & Hs & Hpre & Hmid & Hpost & Hrun).
      inversion Hu; subst; rewrite ?stream_snoc_silent by done;
        try (exists pre, mid, post; by repeat split; auto).
      rewrite stream_snoc, Hs.
      exists pre, mid, (post ++ [(i0, line)]). rewrite <- !app_assoc.
      repeat split; auto.
      * apply Forall_app. split; [done |]. constructor; [| done]. simpl. congruence.
      * intros Hr. destruct Hne.
        apply (one_runner st0 i i0 h g); auto.
        unfold isRun. by match goal with H : _ = g_pc g |- _ => rewrite <- H end.
Qed.

Lemma blocksOk_runs buckets tr st :
  runs env verbose 1 buckets tr st → blocksOk tr st.
Proof.
  revert tr st. apply runs_ind.
  - intros i g Hg. done.
  - eauto using blocksOk_step, traceOk_runs, countersOk_runs.
Qed.
End Blocks.

(** ** The scan: the claims *)

Lemma runs_scheduleOf env verbose limit buckets choices tr :
  labelsOf env verbose limit choices (init buckets) = Some tr →
  ∃ st, runs env verbose limit buckets tr st.
Proof.
  unfold runs. generalize (init buckets). revert tr.
  induction choices as [|w choices IH]; intros tr st; cbn [labelsOf].
  - intros [= <-]. by exists st.
  - destruct (nextLabel st w) as [l|]; [| done].
    destruct (fire env verbose limit st l) as [st'|] eqn:Hf; [| done].
    destruct (labelsOf env verbose limit choices st') as [tr'|] eqn:Hl; [| done].
    intros [= <-]. cbn [exec]. rewrite Hf. eauto.
Qed.

(** The scan can always be run to the return of [main]. *)
Lemma completion env verbose limit :
  1 ≤ limit →
  ∀ n st, stepsLeft env verbose st ≤ n → countersOk limit st →
    ∃ tr' st', exec env verbose limit tr' st = Some st' ∧ main_pc st' = MExit.
Proof.
  intros Hlim n. induction n as [|n IH]; intros st Hn Hc.
  - destruct (decide (main_pc st = MExit)) as [Hm|Hm]; [by exists [], st |].
    destruct (progress env verbose limit st Hlim Hc Hm) as (l & st' & Hf).
    apply fire_step, stepsLeft_step in Hf. lia.
  - destruct (decide (main_pc st = MExit)) as [Hm|Hm]; [by exists [], st |].
    destruct (progress env verbose limit st Hlim Hc Hm) as (l & st' & Hf).
    pose proof (fire_step _ _ _ _ _ _ Hf) as Hstep.
    destruct (IH st') as (tr' & st'' & Hex & Hm').
    + apply stepsLeft_step in Hstep. lia.
    + eauto using countersOk_step.
    + exists (l :: tr'), st''. cbn [exec]. by rewrite Hf.
Qed.

(** C2 fails as stated: with two permits the EXISTS line of a second candidate
    is received between the EXISTS line and the LISTABLE line of the first. *)
Lemma scan_interleaves :
  ∃ tr st,
    runs mock false 2 ["listable"; "restricted"] tr st ∧
    main_pc st = MExit ∧
    stream tr
    = [ (0, "EXISTS: https://storage.googleapis.com/listable/");
        (1, "EXISTS: https://storage.googleapis.com/restricted/");
        (0, "    LISTABLE: listable"); (0, "        - a.txt");
        (0, "        - b.txt") ] ∧
    ¬ contiguous 0 (stream tr).
Proof.
  exists (scheduleOf mock false 2 ["listable"; "restricted"] turnsOfTwo).
  eexists. split; [vm_compute; reflexivity |]. split; [reflexivity |].
  assert (stream (scheduleOf mock false 2 ["listable"; "restricted"] turnsOfTwo)
          = [ (0, "EXISTS: https://storage.googleapis.com/listable/");
              (1, "EXISTS: https://storage.googleapis.com/restricted/");
              (0, "    LISTABLE: listable"); (0, "        - a.txt");
              (0, "        - b.txt") ]) as -> by (vm_compute; reflexivity).
  split; [done |].
  intros (pre & mid & post & Heq & Hpre & Hmid & Hpost).
  destruct pre as [|e pre]; simplify_eq/=.
  - destruct mid as [|e1 mid]; simplify_eq/=.
    + apply Forall_cons in Hpost as [? _]. done.
    + destruct mid as [|e2 mid]; simplify_eq/=.
      * apply Forall_cons in Hpost as [_ Hpost].
        apply Forall_cons in Hpost as [? _]. done.
      * apply Forall_cons in Hmid as [_ Hmid].
        apply Forall_cons in Hmid as [? _]. done.
  - apply Forall_cons in Hpre as [? _]. done.
Qed.

(** C2, amended: in every interleaving the lines received from a candidate,
    followed by the lines it still has to send, are the lines of its probe
    and listing in their order (EXISTS, LISTABLE, then the objects); with a
    concurrency limit of one they also form one block of the stream. *)
Theorem stream_keeps_order env verbose limit buckets tr st i g :
  runs env verbose limit buckets tr st →
  units st !! i = Some g →
  linesOf i (stream tr) ++ sends (pending env verbose g)
  = sends (checkBucket env (g_bucket g) verbose)
  ∧ (limit = 1 → contiguous i (stream tr)).
Proof.
  intros Hr Hg. split.
  - by apply (streamOk_runs env verbose limit buckets tr st Hr).
  - intros ->.
    destruct (blocksOk_runs env verbose buckets tr st Hr i g Hg)
      as (pre & mid & post & Heq & Hpre & Hmid & Hpost & _).
    by exists pre, mid, post.
Qed.

Lemma stream_keeps_order_witness :
  linesOf 0 (stream (scheduleOf mock false 1 ["listable"; "restricted"] turnsInOrder))
  = [ "EXISTS: https://storage.googleapis.com/listable/";
      "    LISTABLE: listable"; "        - a.txt"; "        - b.txt" ]
  ∧ contiguous 0 (stream (scheduleOf mock false 1 ["listable"; "restricted"] turnsInOrder)).
Proof.
  destruct (stream_keeps_order mock false 1 ["listable"; "restricted"]
              (scheduleOf mock false 1 ["listable"; "restricted"] turnsInOrder)
              {| main_pc := MExit;
                 units := [ {| g_bucket := "listable"; g_pc := UEnd |};
                            {| g_bucket := "restricted"; g_pc := UEnd |} ];
                 sem := 0; wg := 0 |}
              0 {| g_bucket := "listable"; g_pc := UEnd |})
    as [Hlines Hblock].
  - vm_compute. reflexivity.
  - reflexivity.
  - split.
    + rewrite app_nil_r in Hlines. rewrite Hlines. vm_compute. reflexivity.
    + apply Hblock. reflexivity.
Defined.

(** C3: at every point of the scan at most [limit] goroutines hold a permit
    (they are past [sem <- struct{}{}] and not yet past [<-sem]; [sem] holds
    one token for each of them), and before any request of a goroutine the
    schedule shows its acquire and no release. *)
Theorem permits_bounded env verbose limit buckets tr st :
  1 ≤ limit →
  runs env verbose limit buckets tr st →
  holders st ≤ limit ∧ sem st = holders st ∧
  ∀ tr1 i r tr2, tr = tr1 ++ LNet i r :: tr2 →
    LAcquire i ∈ tr1 ∧ LRelease i ∉ tr1.
Proof.
  intros _ Hr.
  destruct (countersOk_runs env verbose limit buckets tr st Hr) as (Hs & Hle & _).
  split; [lia |]. split; [done |].
  intros tr1 i r tr2 ->.
  apply runs_prefix in Hr as (st1 & Hr1 & Hex). cbn [exec] in Hex.
  destruct (fire env verbose limit st1 (LNet i r)) as [st2|] eqn:Hf; [| done].
  pose proof (traceOk_runs env verbose limit buckets tr1 st1 Hr1 i) as Htr.
  cbn [fire] in Hf.
  apply withUnit_Some in Hf as (_ & g & next & Hg & Hk & _).
  rewrite Hg in Htr. cbn [fmap option_fmap option_map] in Htr.
  destruct (g_pc g) as [|todo| |]; try done.
Qed.

Lemma permits_bounded_witness :
  holders {| main_pc := MExit;
             units := [ {| g_bucket := "listable"; g_pc := UEnd |};
                        {| g_bucket := "restricted"; g_pc := UEnd |} ];
             sem := 0; wg := 0 |} ≤ 2
  ∧ LAcquire 1 ∈ [LSpawn 0 "listable"; LSpawn 1 "restricted"; LSink; LAcquire 0;
                   LAcquire 1;
                   LNet 0 (Head "https://www.googleapis.com/storage/v1/b/listable");
                   LSend 0 "EXISTS: https://storage.googleapis.com/listable/"].
Proof.
  destruct (permits_bounded mock false 2 ["listable"; "restricted"]
              (scheduleOf mock false 2 ["listable"; "restricted"] turnsOfTwo)
              {| main_pc := MExit;
                 units := [ {| g_bucket := "listable"; g_pc := UEnd |};
                            {| g_bucket := "restricted"; g_pc := UEnd |} ];
                 sem := 0; wg := 0 |})
    as (Hle & _ & Hnet).
  - lia.
  - vm_compute. reflexivity.
  - split; [exact Hle |].
    refine (proj1 (Hnet _ 1 (Head "https://www.googleapis.com/storage/v1/b/restricted")
                     (skipn 8 (scheduleOf mock false 2 ["listable"; "restricted"] turnsOfTwo))
                     _)).
    vm_compute. reflexivity.
Defined.

(** C4 fails as stated: [wg.Done()] is deferred inside [checkBucket], before
    the goroutine's [<-sem].  With one candidate whose probe fails, [output]
    is closed while goroutine 0 still holds its permit, and when [main] then
    returns the goroutine never releases it. *)
Lemma closed_before_release :
  ∃ st st',
    runs mock false 1 ["offline"] (scheduleOf mock false 1 ["offline"] turnsToClose) st ∧
    main_pc st = MClosed ∧
    units st = [ {| g_bucket := "offline"; g_pc := UHold |} ] ∧ sem st = 1 ∧
    runs mock false 1 ["offline"] (scheduleOf mock false 1 ["offline"] turnsToExit) st' ∧
    main_pc st' = MExit ∧
    units st' = [ {| g_bucket := "offline"; g_pc := UHold |} ] ∧
    ∀ l, fire mock false 1 st' l = None.
Proof.
  eexists. eexists.
  split; [vm_compute; reflexivity |]. do 3 (split; [reflexivity |]).
  split; [vm_compute; reflexivity |]. do 2 (split; [reflexivity |]).
  intros l. by destruct l as [i b| |[|i]|[|i] r|i line|[|i]|[|i]| |].
Qed.

(** C4, amended: for every finite candidate list and limit of at least one
    the scan terminates, whatever the probes answer: a schedule has a bounded
    number of steps, some step is enabled until [main] has returned, and the
    scan can always be run to the return of [main].  [output] is closed only
    after every candidate has been spawned and every goroutine has returned
    from [checkBucket]; a goroutine at [<-sem] is never blocked. *)
Theorem scan_terminates env verbose limit buckets tr st :
  1 ≤ limit →
  runs env verbose limit buckets tr st →
  length tr + stepsLeft env verbose st = stepsLeft env verbose (init buckets)
  ∧ (main_pc st ≠ MExit → ∃ l st', fire env verbose limit st l = Some st')
  ∧ (∃ tr' st', exec env verbose limit tr' st = Some st' ∧ main_pc st' = MExit)
  ∧ (main_pc st = MClosed ∨ main_pc st = MExit →
     g_bucket <$> units st = buckets ∧
     ∀ i g, units st !! i = Some g → g_pc g = UHold ∨ g_pc g = UEnd)
  ∧ (∀ i g, main_pc st ≠ MExit → units st !! i = Some g → g_pc g = UHold →
     ∃ st', fire env verbose limit st (LRelease i) = Some st').
Proof.
  intros Hlim Hr.
  pose proof (countersOk_runs env verbose limit buckets tr st Hr) as Hc.
  pose proof (mainOk_runs env verbose limit buckets tr st Hr) as Hm.
  split; [by apply (stepsLeft_runs env verbose limit) |].
  split; [by apply progress |].
  split; [by apply (completion env verbose limit Hlim (stepsLeft env verbose st)) |].
  split.
  - intros Hcl. split.
    + unfold mainOk in Hm. destruct Hcl as [E | E]; rewrite E in Hm; tauto.
    + intros i g. by apply (closed_all_done limit buckets).
  - intros i g Hne Hg Hpc. by apply (release_enabled env verbose limit st i g).
Qed.

Lemma scan_terminates_witness :
  (∃ l st', fire mock false 1
              {| main_pc := MClosed;
                 units := [ {| g_bucket := "offline"; g_pc := UHold |} ];
                 sem := 1; wg := 0 |} l = Some st')
  ∧ g_bucket <$> [ {| g_bucket := "offline"; g_pc := UHold |} ] = ["offline"].
Proof.
  destruct (scan_terminates mock false 1 ["offline"]
              (scheduleOf mock false 1 ["offline"] turnsToClose)
              {| main_pc := MClosed;
                 units := [ {| g_bucket := "offline"; g_pc := UHold |} ];
                 sem := 1; wg := 0 |})
    as (_ & Hprogress & _ & Hclosed & _).
  - lia.
  - vm_compute. reflexivity.
  - split.
    + apply Hprogress. discriminate.
    + apply Hclosed. left. reflexivity.
Defined.

(** ** Bucket prober and object lister: the claims *)

Section ProberFacts.
Context (env : Env).
Implicit Types (bucket : string) (verbose : bool) (resp : Response).

Lemma sends_object_lines (objs : list Object) :
  sends ((λ obj, ASend ("        - " +:+ Name obj)) <$> objs)
  = (λ obj, "        - " +:+ Name obj) <$> objs.
Proof. induction objs as [|obj objs IH]; [done |]. simpl. by f_equal. Qed.

Lemma requests_object_lines (objs : list Object) :
  requests ((λ obj, ASend ("        - " +:+ Name obj)) <$> objs) = [].
Proof. induction objs as [|obj objs IH]; [done |]. done. Qed.

(** The lines of a listable bucket: EXISTS, LISTABLE, one line per object. *)
Lemma checkBucket_listing bucket verbose resp resp' objectList :
  http_Head env ("https://www.googleapis.com/storage/v1/b/" +:+ bucket) = Ok resp →
  StatusCode resp = 200%Z →
  http_Get env ("https://www.googleapis.com/storage/v1/b/" +:+ bucket +:+ "/o") = Ok resp' →
  StatusCode resp' = 200%Z →
  json_Decode env resp' = Ok objectList →
  sends (checkBucket env bucket verbose)
  = ("EXISTS: " +:+ "https://storage.googleapis.com/" +:+ bucket +:+ "/")
    :: ("    LISTABLE: " +:+ bucket)
    :: ((λ obj, "        - " +:+ Name obj) <$> Items objectList).
Proof.
  intros Hhead Hs Hget Hs' Hdec.
  unfold checkBucket, listObjects. rewrite Hhead, Hs, Hget, Hs', Hdec.
  cbn [Z.eqb Pos.eqb sends omap list_omap]. simpl.
  by rewrite sends_object_lines.
Qed.
End ProberFacts.

Example checkBucket_absent :
  checkBucket mock "nobody" true
  = [ANet (Head "https://www.googleapis.com/storage/v1/b/nobody")].
Proof. reflexivity. Qed.

Example checkBucket_offline :
  sends (checkBucket mock "offline" false)
  = [ "ERROR: Could not connect to https://www.googleapis.com/storage/v1/b/offline"
        +:+ " - dial tcp: i/o timeout" ].
Proof. reflexivity. Qed.

Example checkBucket_flaky :
  sends (checkBucket mock "flaky" false)
  = [ "EXISTS: https://storage.googleapis.com/flaky/";
      "ERROR: Could not list objects in flaky - dial tcp: connection refused" ].
Proof. reflexivity. Qed.

(** On status 403 the prober looks at the body it has read: with
    [Access denied] or [does not have] in it nothing is sent, otherwise the
    EXISTS line is sent; in both cases [http.Head] is the only call. *)
Lemma checkBucket_403 env bucket verbose resp :
  http_Head env ("https://www.googleapis.com/storage/v1/b/" +:+ bucket) = Ok resp →
  StatusCode resp = 403%Z →
  sends (checkBucket env bucket verbose)
  = (if Contains (Body resp) "Access denied" || Contains (Body resp) "does not have"
     then []
     else ["EXISTS: " +:+ "https://storage.googleapis.com/" +:+ bucket +:+ "/"])
  ∧ requests (checkBucket env bucket verbose)
    = [Head ("https://www.googleapis.com/storage/v1/b/" +:+ bucket)].
Proof.
  intros Hhead Hs. unfold checkBucket. rewrite Hhead, Hs.
  cbn [Z.eqb Pos.eqb].
  by destruct (Contains (Body resp) "Access denied" || Contains (Body resp) "does not have").
Qed.

(** C1, where the code leaves the claim: the probe is a HEAD, and the answer to
    a HEAD has no body, so the body read at status 403 is empty and holds no
    denial phrase.  Every 403 is therefore reported with the EXISTS line,
    also for an endpoint whose 403 message is the denial; no listing is
    attempted. *)
Theorem checkBucket_403_head env bucket verbose resp :
  headNoBody env →
  http_Head env ("https://www.googleapis.com/storage/v1/b/" +:+ bucket) = Ok resp →
  StatusCode resp = 403%Z →
  Contains (Body resp) "Access denied" || Contains (Body resp) "does not have" = false
  ∧ sends (checkBucket env bucket verbose)
    = ["EXISTS: " +:+ "https://storage.googleapis.com/" +:+ bucket +:+ "/"]
  ∧ requests (checkBucket env bucket verbose)
    = [Head ("https://www.googleapis.com/storage/v1/b/" +:+ bucket)].
Proof.
  intros Hnb Hhead Hs.
  destruct (checkBucket_403 env bucket verbose resp Hhead Hs) as [Hsends Hreq].
  rewrite (Hnb _ _ Hhead) in *. by cbn in *.
Qed.

Lemma checkBucket_403_head_witness :
  (http_Get mock "https://www.googleapis.com/storage/v1/b/denied"
   = Ok {| StatusCode := 403; Body := "Access denied."; BodyErr := None |})
  ∧ sends (checkBucket mock "denied" false)
    = ["EXISTS: https://storage.googleapis.com/denied/"].
Proof.
  split; [reflexivity |].
  refine (proj1 (proj2 (checkBucket_403_head mock "denied" false
           {| StatusCode := 403; Body := EmptyString; BodyErr := None |} _ _ _))).
  - intros url resp. unfold mock, mockHead. cbn [http_Head].
    repeat (destruct (String.eqb url _); [by intros [= <-] |]). by intros [= <-].
  - reflexivity.
  - reflexivity.
Defined.

(** C8: for a candidate answered with status 200 whose object index decodes to
    the two items [a.txt] and [b.txt], the lines are the EXISTS line, the
    LISTABLE line and the two object lines, in this order. *)
Theorem checkBucket_two_objects env Y verbose resp resp' :
  http_Head env ("https://www.googleapis.com/storage/v1/b/" +:+ Y) = Ok resp →
  StatusCode resp = 200%Z →
  http_Get env ("https://www.googleapis.com/storage/v1/b/" +:+ Y +:+ "/o") = Ok resp' →
  StatusCode resp' = 200%Z →
  json_Decode env resp' = Ok {| Items := [ {| Name := "a.txt" |}; {| Name := "b.txt" |} ] |} →
  sends (checkBucket env Y verbose)
  = [ "EXISTS: " +:+ "https://storage.googleapis.com/" +:+ Y +:+ "/";
      "    LISTABLE: " +:+ Y;
      "        - a.txt";
      "        - b.txt" ].
Proof.
  intros Hhead Hs Hget Hs' Hdec.
  by rewrite (checkBucket_listing env Y verbose resp resp' _ Hhead Hs Hget Hs' Hdec).
Qed.

Lemma checkBucket_two_objects_witness :
  sends (checkBucket mock "listable" false)
  = [ "EXISTS: https://storage.googleapis.com/listable/";
      "    LISTABLE: listable"; "        - a.txt"; "        - b.txt" ].
Proof.
  apply (checkBucket_two_objects mock "listable" false
           {| StatusCode := 200; Body := EmptyString; BodyErr := None |}
           {| StatusCode := 200; Body := twoItemIndex; BodyErr := None |});
    reflexivity.
Defined.

(** C10 fails as stated: a listing answered with status 500 and a body that
    does not decode is passed over without any line, because the body is
    decoded only at status 200. *)
Lemma listObjects_silent_failure :
  listFailsAsWorded mockOutage "acme"
  ∧ sends (listObjects mockOutage "acme") = []
  ∧ sends (checkBucket mockOutage "acme" true)
    = ["EXISTS: https://storage.googleapis.com/acme/"].
Proof.
  split; [| split; reflexivity].
  unfold listFailsAsWorded. cbn. eexists. reflexivity.
Qed.

(** C10, amended: when the listing request fails at transport level, or is
    answered with status 200 and a body that fails to decode, the lister sends
    exactly one line, an ERROR line, and so no LISTABLE or object line; and
    the scan goes on: from every point it can be run to its end, where the
    stream holds for each candidate exactly the lines of its own probe and
    listing. *)
Theorem listObjects_failure env bucket verbose limit buckets tr st :
  (∃ err, http_Get env ("https://www.googleapis.com/storage/v1/b/" +:+ bucket +:+ "/o")
          = Err err)
  ∨ (∃ resp err,
       http_Get env ("https://www.googleapis.com/storage/v1/b/" +:+ bucket +:+ "/o")
       = Ok resp
       ∧ StatusCode resp = 200%Z ∧ json_Decode env resp = Err err) →
  1 ≤ limit →
  runs env verbose limit buckets tr st →
  (∃ line, sends (listObjects env bucket) = [line] ∧ HasPrefix line "ERROR: " = true)
  ∧ ∃ tr' st',
      runs env verbose limit buckets (tr ++ tr') st' ∧ main_pc st' = MExit ∧
      ∀ j g, units st' !! j = Some g →
        linesOf j (stream (tr ++ tr')) = sends (checkBucket env (g_bucket g) verbose).
Proof.
  intros Hfail Hlim Hr. split.
  - unfold listObjects.
    destruct Hfail as [[err ->] | (resp & err & -> & -> & ->)].
    + eexists. split; [reflexivity |]. done.
    + cbn [Z.eqb Pos.eqb sends omap list_omap].
      eexists. split; [reflexivity |]. done.
  - pose proof (countersOk_runs env verbose limit buckets tr st Hr) as Hc.
    destruct (completion env verbose limit Hlim _ st (Nat.le_refl _) Hc)
      as (tr' & st' & Hex & Hm).
    assert (runs env verbose limit buckets (tr ++ tr') st') as Hr'.
    { unfold runs in *. by rewrite exec_app, Hr. }
    exists tr', st'. split; [done |]. split; [done |].
    intros j g Hg.
    pose proof (streamOk_runs env verbose limit buckets _ _ Hr' j g Hg) as Hs.
    pose proof (countersOk_runs env verbose limit buckets _ _ Hr') as Hc'.
    pose proof (mainOk_runs env verbose limit buckets _ _ Hr') as Hm'.
    destruct (closed_all_done limit buckets st' j g Hc' Hm' (or_intror Hm) Hg)
      as [Hpc | Hpc]; unfold pending in Hs; rewrite Hpc, app_nil_r in Hs; done.
Qed.

Lemma listObjects_failure_witness :
  ∃ line, sends (listObjects mock "broken") = [line] ∧ HasPrefix line "ERROR: " = true.
Proof.
  refine (proj1 (listObjects_failure mock "broken" false 1 ["broken"; "restricted"]
                   [] (init ["broken"; "restricted"]) _ _ _)).
  - right. eexists. eexists. split; [reflexivity |]. split; reflexivity.
  - lia.
  - reflexivity.
Defined.

(** ** Start-up: the claims *)

Section SetupFacts.
Context (env : Env).

Lemma beforeSummary_ret {A} (a : A) : beforeSummary (ret a).
Proof. done. Qed.

Lemma existsb_app_false {A} (p : A → bool) l1 l2 :
  existsb p l1 = false → existsb p l2 = false → existsb p (l1 ++ l2) = false.
Proof. intros H1 H2. by rewrite existsb_app, H1, H2. Qed.

Lemma beforeSummary_bind {A B} (m : M A) (k : A → M B) :
  beforeSummary m → (∀ a, beforeSummary (k a)) → beforeSummary (bind m k).
Proof.
  destruct m as [evs [h|a]]; [done |].
  intros [Hs _] Hk. specialize (Hk a). unfold beforeSummary, bind in *.
  destruct (k a) as [evs' r]. destruct Hk as [Hs' Hr]. cbn [fst snd] in *.
  split; [by apply existsb_app_false |].
  destruct r as [h|b]; [| done].
  destruct Hr as [He Hw]. split; [| done].
  rewrite existsb_app, He. apply orb_true_r.
Qed.

Lemma reportsFatal_bind {A B} (m : M A) (k : A → M B) :
  beforeSummary m → (∀ a, reportsFatal (k a)) → reportsFatal (bind m k).
Proof.
  destruct m as [evs [h|a]].
  - intros [Hs [He Hw]] _ h' [= <-]. cbn [fst snd bind] in *.
    split; [done |]. by rewrite Hs, bool_decide_eq_false_2.
  - intros [Hs _] Hk h'. specialize (Hk a). unfold reportsFatal, bind in *.
    destruct (k a) as [evs' r]. cbn [fst snd] in *. intros ->.
    destruct (Hk h' eq_refl) as [He Hsum].
    rewrite !existsb_app, He, Hs, Hsum. split; [apply orb_true_r | done].
Qed.

Lemma beforeSummary_readLinesFromFile path : beforeSummary (readLinesFromFile env path).
Proof.
  unfold readLinesFromFile. destruct (os_ReadLines env path); [done |].
  repeat split; done.
Qed.

Lemma beforeSummary_ensureWordlist : beforeSummary (ensureWordlist env).
Proof.
  unfold ensureWordlist.
  destruct (os_UserHomeDir env); [| by repeat split].
  destruct (os_StatNotExist env _); [| by repeat split].
  destruct (os_MkdirAll env _); [by repeat split |].
  destruct (downloadFile env _ _); by repeat split.
Qed.

Lemma beforeSummary_generatePermutations kw path :
  beforeSummary (generatePermutations env kw path).
Proof.
  apply beforeSummary_bind; [apply beforeSummary_readLinesFromFile |].
  intros. apply beforeSummary_ret.
Qed.

Lemma beforeSummary_collectBuckets path keywords : ∀ buckets,
  beforeSummary (collectBuckets env path buckets keywords).
Proof.
  induction keywords as [|kw keywords IH]; intros buckets; cbn [collectBuckets].
  - apply beforeSummary_ret.
  - apply beforeSummary_bind; [apply beforeSummary_generatePermutations | auto].
Qed.

(** The named errors are fatal. *)
Lemma setup_missing_input f :
  keyword f = EmptyString → keywordList f = EmptyString →
  setup env f
  = ([EPrint ("ERROR: Provide either a keyword (-n) or a keyword list file (-l)" +:+ LF);
      EUsage], inl (Return MissingInput)).
Proof. intros Hk Hl. unfold setup. by rewrite Hk, Hl. Qed.

Lemma setup_keyword_list_unreadable f err :
  wordlist f ≠ EmptyString → keywordList f ≠ EmptyString →
  os_ReadLines env (keywordList f) = Err err →
  setup env f
  = ([EPrint ("ERROR: Unable to read file: " +:+ err +:+ LF)],
     inl (Exit (FileUnreadable (keywordList f)) 1)).
Proof.
  intros Hw%String.eqb_neq Hl%String.eqb_neq Hread. unfold setup, readLinesFromFile.
  by rewrite Hl, Hw, andb_false_r, Hread.
Qed.

Lemma setup_wordlist_unreadable f err :
  wordlist f ≠ EmptyString → keywordList f = EmptyString → keyword f ≠ EmptyString →
  os_ReadLines env (wordlist f) = Err err →
  setup env f
  = ([EPrint ("ERROR: Unable to read file: " +:+ err +:+ LF)],
     inl (Exit (FileUnreadable (wordlist f)) 1)).
Proof.
  intros Hw%String.eqb_neq Hl Hk%String.eqb_neq Hread.
  unfold setup.
  rewrite Hl, Hk, Hw. cbn [andb negb String.eqb collectBuckets bind ret].
  unfold generatePermutations, readLinesFromFile. by rewrite Hread.
Qed.
End SetupFacts.

(** C9 fails as stated: when the output file cannot be created, the summary
    has already been printed when the error is reported. *)
Lemma summary_before_output_error :
  setup mock flagsUncreatable
  = ([ EPrint (LF +:+ "Generated 16 bucket names from 1 keyword(s)." +:+ LF);
       EPrint ("ERROR: Could not create output file: open /proc/results.txt: permission denied"
                 +:+ LF) ],
     inl (Return OutputUncreatable))
  ∧ existsb isSummary (setup mock flagsUncreatable).1 = true.
Proof. split; vm_compute; reflexivity. Qed.

(** What a halted start-up has printed: an ERROR message, and the summary
    before it exactly when the reason is the output file; no scan is started. *)
Lemma setup_halt_report env f evs h :
  setup env f = (evs, inl h) →
  existsb isError evs = true ∧
  existsb isSummary evs = bool_decide (why h = OutputUncreatable) ∧
  ∀ tr st, ¬ mainRuns env f tr st.
Proof.
  intros Hsetup.
  assert (reportsFatal (setup env f)) as Hrep.
  2: { specialize (Hrep h). rewrite Hsetup in Hrep.
       destruct (Hrep eq_refl) as [He Hs]. repeat split; [done..|].
       intros tr st (evs' & scan & Hscan & _). congruence. }
  clear. unfold setup.
  destruct (_ && _); [by intros h [= <-] |].
  apply reportsFatal_bind.
  { destruct (String.eqb _ _); [apply beforeSummary_ensureWordlist | apply beforeSummary_ret]. }
  intros wordlistPath. apply reportsFatal_bind.
  { destruct (negb _); [apply beforeSummary_readLinesFromFile |].
    destruct (negb _); apply beforeSummary_ret. }
  intros keywords. apply reportsFatal_bind; [apply beforeSummary_collectBuckets |].
  intros buckets h.
  destruct (negb _); [| done].
  destruct (os_Create env _); [| done].
  intros [= <-]. done.
Qed.

(** * Further properties of the code *)

(** ** [removeDuplicates] and the candidates of a keyword *)

Section GeneratorMore.
Implicit Types (k s c : string) (S l : list string).

Lemma firstOccurrences_filter (P : string → Prop) `{!∀ x, Decision (P x)} l :
  firstOccurrences (filter P l) = filter P (firstOccurrences l).
Proof.
  induction l as [|x l IH]; [done |].
  cbn [firstOccurrences]. destruct (decide (P x)) as [Hx|Hx].
  - rewrite !filter_cons_True by done. cbn [firstOccurrences]. f_equal.
    rewrite IH, !list_filter_filter. apply list_filter_iff. intros y. tauto.
  - rewrite !filter_cons_False by done. rewrite IH, list_filter_filter.
    apply list_filter_iff. intros y. split; [| tauto].
    intros Hy. split; [done |]. by intros ->.
Qed.

Lemma firstOccurrences_app l1 l2 :
  firstOccurrences (l1 ++ l2)
  = firstOccurrences l1 ++ filter (λ y, y ∉ l1) (firstOccurrences l2).
Proof.
  induction l1 as [|x l1 IH]; cbn [app firstOccurrences].
  - by rewrite filter_not_in_nil.
  - f_equal. rewrite IH, filter_app. f_equal.
    rewrite list_filter_filter. apply list_filter_iff.
    intros y. rewrite not_elem_of_cons. tauto.
Qed.

Lemma length_firstOccurrences l : length (firstOccurrences l) ≤ length l.
Proof.
  induction l as [|x l IH]; [done |]. cbn [firstOccurrences length].
  pose proof (length_filter (λ y, y ≠ x) (firstOccurrences l)). lia.
Qed.

Lemma length_rawBuckets k S : length (rawBuckets k S) = 6 * length S + 4.
Proof.
  unfold rawBuckets. rewrite length_app. cbn [length].
  induction S as [|s S IH]; [done |].
  rewrite bind_cons, length_app, length_fmap. cbn [permutations length] in *. lia.
Qed.
End GeneratorMore.

(** X1: [removeDuplicates] returns the first occurrences of its input in their
    order: the result has no duplicates, the same elements as the input, and
    is a sublist of the input. *)
Theorem removeDuplicates_first_occurrences (input : list string) :
  removeDuplicates input = firstOccurrences input
  ∧ NoDup (removeDuplicates input)
  ∧ (∀ x, x ∈ removeDuplicates input ↔ x ∈ input)
  ∧ removeDuplicates input `sublist_of` input.
Proof.
  rewrite removeDuplicates_firstOccurrences.
  split; [done |]. split; [apply NoDup_firstOccurrences |].
  split; [intros x; apply elem_of_firstOccurrences |].
  induction input as [|x input IH]; [done |].
  cbn [firstOccurrences]. apply sublist_skip.
  etrans; [apply sublist_filter | done].
Qed.

(** X2: [removeDuplicates] is idempotent, and a list without duplicates is
    returned as it is. *)
Theorem removeDuplicates_idempotent (input : list string) :
  removeDuplicates (removeDuplicates input) = removeDuplicates input
  ∧ (NoDup input → removeDuplicates input = input).
Proof.
  split.
  - rewrite !removeDuplicates_firstOccurrences.
    apply firstOccurrences_NoDup, NoDup_firstOccurrences.
  - intros Hnd. rewrite removeDuplicates_firstOccurrences.
    by apply firstOccurrences_NoDup.
Qed.

Lemma removeDuplicates_idempotent_witness :
  removeDuplicates ["acme"; "acme.com"] = ["acme"; "acme.com"].
Proof.
  refine (proj2 (removeDuplicates_idempotent ["acme"; "acme.com"]) _).
  repeat (apply NoDup_cons; split); try apply NoDup_nil_2;
    rewrite ?elem_of_cons, ?elem_of_nil; intros H;
    repeat (destruct H as [H | H]); done.
Defined.

(** X3: whatever the keyword and the wordlist, the candidates of a keyword
    have no duplicates, contain the keyword and its [.com], [.net] and [.org]
    forms, and number between 4 and 6 per suffix plus 4. *)
Theorem generate_size (k : string) (S : list string) :
  NoDup (generate k S)
  ∧ (∀ c, c ∈ keywordForms k → c ∈ generate k S)
  ∧ 4 ≤ length (generate k S) ≤ 6 * length S + 4.
Proof.
  assert (∀ c, c ∈ keywordForms k → c ∈ generate k S) as Hforms.
  { intros c Hc. apply elem_of_generate. unfold rawBuckets.
    apply elem_of_app. by right. }
  split; [apply generate_NoDup |]. split; [done |]. split.
  - change 4 with (length (keywordForms k)).
    apply submseteq_length. apply NoDup_submseteq; [apply keywordForms_NoDup | done].
  - rewrite <- (length_rawBuckets k), generate_firstOccurrences.
    apply length_firstOccurrences.
Qed.

(** X4: for a keyword without the text [{suffix}], the candidates are exactly
    the six joins of the keyword with each suffix ([k-s], [s-k], [k_s],
    [s_k], [ks], [sk]) and the four keyword-only forms. *)
Theorem generate_candidates (k : string) (S : list string) (c : string) :
  Contains k "{suffix}" = false →
  c ∈ generate k S ↔ (∃ s, s ∈ S ∧ c ∈ sixExpansions k s) ∨ c ∈ keywordForms k.
Proof.
  intros Hk. split; [by apply generate_forms |].
  rewrite elem_of_generate. unfold rawBuckets.
  rewrite elem_of_app, list_elem_of_bind.
  intros [(s & Hs & Hc) | Hc]; [left | by right].
  exists s. by rewrite expandTemplate_free.
Qed.

Lemma generate_candidates_witness :
  "dev_acme" ∈ generate "acme" ["dev"] ↔
  (∃ s, s ∈ ["dev"] ∧ "dev_acme" ∈ sixExpansions "acme" s)
  ∨ "dev_acme" ∈ keywordForms "acme".
Proof. apply (generate_candidates "acme" ["dev"] "dev_acme"). reflexivity. Defined.

Section WordlistDuplicates.
Implicit Types (k s : string) (S T B : list string) (f : string → list string).

Lemma filter_not_in_self B : filter (λ y, y ∉ B) B = [].
Proof.
  assert (∀ B', (∀ x, x ∈ B' → x ∈ B) → filter (λ y, y ∉ B) B' = []) as H.
  { induction B' as [|x B' IH]; intros Hsub; [done |].
    rewrite filter_cons_False.
    - apply IH. intros y Hy. apply Hsub. by right.
    - intros Hx. apply Hx, Hsub. by left. }
  by apply H.
Qed.

(** Leaving out the later copies of a suffix only leaves out entries that its
    first copy has already produced. *)
Lemma filter_block_bind f s T :
  filter (λ y, y ∉ f s) (filter (λ t, t ≠ s) T ≫= f)
  = filter (λ y, y ∉ f s) (T ≫= f).
Proof.
  induction T as [|t T IH]; [done |].
  destruct (decide (t = s)) as [->|Hne].
  - rewrite filter_cons_False by tauto.
    by rewrite bind_cons, filter_app, IH, filter_not_in_self.
  - rewrite filter_cons_True by done. by rewrite !bind_cons, !filter_app, IH.
Qed.

Lemma firstOccurrences_bind f S : ∀ F,
  firstOccurrences ((S ≫= f) ++ F)
  = firstOccurrences ((firstOccurrences S ≫= f) ++ F).
Proof.
  induction S as [|s S IH]; intros F; [done |].
  cbn [firstOccurrences]. rewrite !bind_cons, <- !app_assoc, !(firstOccurrences_app (f s)).
  f_equal. rewrite IH.
  rewrite <- !(firstOccurrences_filter (λ y, y ∉ f s)). f_equal.
  by rewrite !filter_app, (filter_block_bind f s (firstOccurrences S)).
Qed.
End WordlistDuplicates.

(** X5: repeated lines of the wordlist change nothing: the candidates of a
    keyword over a suffix list are those over its first occurrences, in the
    same order. *)
Theorem generate_wordlist_duplicates (k : string) (S : list string) :
  generate k S = generate k (firstOccurrences S).
Proof.
  rewrite !generate_firstOccurrences. unfold rawBuckets.
  apply firstOccurrences_bind.
Qed.

(** ** The prober and the lister, case by case *)

Section ProberMore.
Context (env : Env).
Implicit Types (bucket : string) (verbose : bool) (resp : Response).

Lemma requests_listObjects bucket :
  requests (listObjects env bucket) = [Get (objectsURL bucket)].
Proof.
  unfold listObjects, objectsURL. cbn [requests omap list_omap]. f_equal.
  destruct (http_Get env _) as [resp|err]; [| done].
  destruct (StatusCode resp =? 200)%Z; [| done].
  destruct (json_Decode env resp) as [objectList|err]; [| done].
  apply requests_object_lines.
Qed.

Lemma status_cases n :
  (n = 404 ∨ n = 403 ∨ n = 200)%Z ∨ knownStatus n = false.
Proof.
  unfold knownStatus.
  destruct (Z.eqb_spec n 404); [auto |].
  destruct (Z.eqb_spec n 403); [auto |].
  destruct (Z.eqb_spec n 200); auto.
Qed.
End ProberMore.

(** X6: the calls of [net/http] that [checkBucket] makes: first [http.Head]
    on the metadata URL; then [http.Get], once and on the objects URL, exactly
    when [http.Head] returned a response, not an error, and its status is
    200; and no other call.  Whether a call puts a request on the wire is for
    [net/http] to decide. *)
Theorem checkBucket_requests env bucket verbose :
  requests (checkBucket env bucket verbose)
  = Head (metadataURL bucket)
    :: match http_Head env (metadataURL bucket) with
       | Ok resp => if (StatusCode resp =? 200)%Z then [Get (objectsURL bucket)] else []
       | Err _ => []
       end.
Proof.
  unfold checkBucket, metadataURL. cbn [requests omap list_omap]. f_equal.
  destruct (http_Head env _) as [resp|err]; [| done].
  destruct (status_cases (StatusCode resp)) as [[-> | [-> | ->]] | Hk].
  - done.
  - cbn [Z.eqb Pos.eqb]. by destruct (_ || _).
  - cbn [Z.eqb Pos.eqb omap list_omap]. apply (requests_listObjects env bucket).
  - unfold knownStatus in Hk.
    apply orb_false_elim in Hk as [Hk H200]. apply orb_false_elim in Hk as [H404 H403].
    rewrite H404, H403, H200. by destruct verbose.
Qed.

(** X7: the verbose flag changes what [checkBucket] does exactly when the HEAD
    is answered with a status other than 404, 403 and 200. *)
Theorem checkBucket_verbose env bucket :
  checkBucket env bucket true = checkBucket env bucket false ↔
  ¬ ∃ resp, http_Head env (metadataURL bucket) = Ok resp ∧
            knownStatus (StatusCode resp) = false.
Proof.
  unfold checkBucket, metadataURL.
  destruct (http_Head env _) as [resp|err].
  - destruct (status_cases (StatusCode resp)) as [[Hs | [Hs | Hs]] | Hk].
    1-3: rewrite Hs; split; [| done]; intros _ (resp' & [= <-] & Hk);
         by rewrite Hs in Hk.
    pose proof Hk as Hk'. unfold knownStatus in Hk.
    apply orb_false_elim in Hk as [Hk H200]. apply orb_false_elim in Hk as [H404 H403].
    rewrite H404, H403, H200. split; [done |]. intros H. destruct H. eauto.
  - split; [| done]. by intros _ (resp' & ? & _).
Qed.

(** X8: a candidate leaves no line in the output exactly when the HEAD is
    answered with 404, with 403 and a denial phrase in the body, or, when not
    verbose, with a status that has no case. *)
Theorem checkBucket_silent env bucket verbose :
  sends (checkBucket env bucket verbose) = [] ↔
  ∃ resp, http_Head env (metadataURL bucket) = Ok resp ∧
    (StatusCode resp = 404%Z
     ∨ (StatusCode resp = 403%Z ∧ denied resp = true)
     ∨ (knownStatus (StatusCode resp) = false ∧ verbose = false)).
Proof.
  unfold checkBucket, metadataURL, denied. cbn [sends omap list_omap].
  destruct (http_Head env _) as [resp|err].
  - destruct (status_cases (StatusCode resp)) as [[Hs | [Hs | Hs]] | Hk].
    + rewrite Hs. split; [| done]. intros _. exists resp. auto.
    + rewrite Hs. cbn [Z.eqb Pos.eqb].
      destruct (_ || _) eqn:Hd; cbn [omap list_omap].
      * split; [| done]. intros _. exists resp. auto.
      * split; [done |]. intros (resp' & [= <-] & [H | [[_ H] | [H _]]]); [| | by rewrite Hs in H].
        -- rewrite Hs in H. done.
        -- congruence.
    + rewrite Hs. cbn [Z.eqb Pos.eqb omap list_omap]. split; [done |].
      intros (resp' & [= <-] & [H | [[H _] | [H _]]]); rewrite Hs in H; done.
    + pose proof Hk as Hk'. unfold knownStatus in Hk.
      apply orb_false_elim in Hk as [Hk H200]. apply orb_false_elim in Hk as [H404 H403].
      rewrite H404, H403, H200. destruct verbose; cbn [omap list_omap].
      * split; [done |].
        intros (resp' & [= <-] & [H | [[H _] | [_ H]]]); [| | done].
        -- by rewrite H in H404.
        -- by rewrite H in H403.
      * split; [| done]. intros _. exists resp. auto.
  - split; [done |]. by intros (resp' & ? & _).
Qed.

(** X9: an EXISTS line is sent exactly when the HEAD is answered with 200, or
    with 403 and no denial phrase in the body; it is then the first line and
    names the public URL of the bucket. *)
Theorem checkBucket_exists env bucket verbose :
  (existsb (λ line, HasPrefix line "EXISTS: ") (sends (checkBucket env bucket verbose)) = true ↔
   ∃ resp, http_Head env (metadataURL bucket) = Ok resp ∧
     (StatusCode resp = 200%Z ∨ (StatusCode resp = 403%Z ∧ denied resp = false)))
  ∧ (existsb (λ line, HasPrefix line "EXISTS: ") (sends (checkBucket env bucket verbose)) = true →
     head (sends (checkBucket env bucket verbose)) = Some ("EXISTS: " +:+ publicURL bucket)).
Proof.
  unfold checkBucket, metadataURL, publicURL, denied.
  destruct (http_Head env _) as [resp|err].
  - destruct (status_cases (StatusCode resp)) as [[Hs | [Hs | Hs]] | Hk].
    + rewrite Hs. split; [| done]. split; [done |].
      intros (resp' & [= <-] & [H | [H _]]); rewrite Hs in H; done.
    + rewrite Hs. cbn [Z.eqb Pos.eqb].
      destruct (_ || _) eqn:Hd.
      * split; [| done]. split; [done |].
        intros (resp' & [= <-] & [H | [_ H]]); [by rewrite Hs in H | congruence].
      * split; [| done]. split; [| done]. intros _. exists resp. auto.
    + rewrite Hs. cbn [Z.eqb Pos.eqb].
      split; [| done]. split; [| done]. intros _. exists resp. auto.
    + pose proof Hk as Hk'. unfold knownStatus in Hk.
      apply orb_false_elim in Hk as [Hk H200]. apply orb_false_elim in Hk as [H404 H403].
      rewrite H404, H403, H200.
      assert (∀ resp', Ok resp = Ok resp' →
                ¬ (StatusCode resp' = 200%Z ∨ StatusCode resp' = 403%Z ∧ denied resp' = false))
        as Hno.
      { intros resp' [= <-] [H | [H _]].
        - by rewrite H in H200.
        - by rewrite H in H403. }
      destruct verbose.
      * split; [| done]. split; [done |]. intros (resp' & Heq & H). by destruct (Hno resp' Heq).
      * split; [| done]. split; [done |]. intros (resp' & Heq & H). by destruct (Hno resp' Heq).
  - split; [| done]. split; [done |]. by intros (resp' & ? & _).
Qed.

(** X10: the lister passes over a listing in silence exactly when the request
    is answered with a status other than 200: no ERROR line is sent for it,
    although no object is listed. *)
Theorem listObjects_silent env bucket :
  sends (listObjects env bucket) = [] ↔
  ∃ resp, http_Get env (objectsURL bucket) = Ok resp ∧ StatusCode resp ≠ 200%Z.
Proof.
  unfold listObjects, objectsURL. cbn [sends omap list_omap].
  destruct (http_Get env _) as [resp|err].
  - destruct (Z.eqb_spec (StatusCode resp) 200) as [Hs|Hs].
    + split; [| by intros (resp' & [= <-] & H)].
      by destruct (json_Decode env resp).
    + split; [| done]. intros _. by exists resp.
  - split; [done |]. by intros (resp' & ? & _).
Qed.

(** X11: a bucket answered with 200 whose index decodes sends the EXISTS line,
    the LISTABLE line and then one line per object, in the order of the
    index; with an empty index the two header lines are all. *)
Theorem checkBucket_object_lines env bucket verbose resp resp' objectList :
  http_Head env (metadataURL bucket) = Ok resp →
  StatusCode resp = 200%Z →
  http_Get env (objectsURL bucket) = Ok resp' →
  StatusCode resp' = 200%Z →
  json_Decode env resp' = Ok objectList →
  sends (checkBucket env bucket verbose)
  = ("EXISTS: " +:+ publicURL bucket) :: ("    LISTABLE: " +:+ bucket)
    :: ((λ obj, "        - " +:+ Name obj) <$> Items objectList)
  ∧ length (sends (checkBucket env bucket verbose)) = 2 + length (Items objectList)
  ∧ (∀ i obj, Items objectList !! i = Some obj →
       sends (checkBucket env bucket verbose) !! (2 + i) = Some ("        - " +:+ Name obj)).
Proof.
  intros Hhead Hs Hget Hs' Hdec.
  rewrite (checkBucket_listing env bucket verbose resp resp' _ Hhead Hs Hget Hs' Hdec).
  split; [done |]. split.
  - cbn [length]. by rewrite length_fmap.
  - intros i obj Hi.
    change (((λ obj, "        - " +:+ Name obj) <$> Items objectList) !! i
            = Some ("        - " +:+ Name obj)).
    by rewrite list_lookup_fmap, Hi.
Qed.

Lemma checkBucket_object_lines_witness :
  length (sends (checkBucket mock "listable" true)) = 2 + 2.
Proof.
  refine (proj1 (proj2 (checkBucket_object_lines mock "listable" true
           {| StatusCode := 200; Body := EmptyString; BodyErr := None |}
           {| StatusCode := 200; Body := twoItemIndex; BodyErr := None |}
           {| Items := [ {| Name := "a.txt" |}; {| Name := "b.txt" |} ] |}
           _ _ _ _ _))); reflexivity.
Defined.

(** ** The start-up, case by case *)

Section SetupMore.
Context (env : Env).

Lemma bind_inr {A B} (m : M A) (k : A → M B) evs b :
  bind m k = (evs, inr b) →
  ∃ evs1 a evs2, m = (evs1, inr a) ∧ k a = (evs2, inr b) ∧ evs = evs1 ++ evs2.
Proof.
  destruct m as [evs1 [h|a]]; [done |]. unfold bind.
  destruct (k a) as [evs2 r] eqn:Hk. intros [= <- ->]. by exists evs1, a, evs2.
Qed.

Lemma bind_inl {A B} (m : M A) (k : A → M B) evs h :
  bind m k = (evs, inl h) →
  m = (evs, inl h) ∨ ∃ evs1 a evs2, m = (evs1, inr a) ∧ k a = (evs2, inl h).
Proof.
  destruct m as [evs1 [h'|a]]; [intros [= <- <-]; by left |]. unfold bind.
  destruct (k a) as [evs2 r] eqn:Hk. intros [= <- ->]. right. by exists evs1, a, evs2.
Qed.

Lemma quietSuccess_bind {A B} (m : M A) (k : A → M B) :
  quietSuccess m → (∀ a, quietSuccess (k a)) → quietSuccess (bind m k).
Proof.
  intros Hm Hk b Hb. destruct (bind m k) as [evs r] eqn:Hbind. cbn [fst snd] in *. subst r.
  apply bind_inr in Hbind as (evs1 & a & evs2 & -> & Hka & ->).
  specialize (Hm a eq_refl). specialize (Hk a b). rewrite Hka in Hk. cbn [fst snd] in *.
  by rewrite existsb_app, Hm, Hk.
Qed.

Lemma quietSuccess_readLinesFromFile path : quietSuccess (readLinesFromFile env path).
Proof. unfold readLinesFromFile. by destruct (os_ReadLines env path). Qed.

Lemma quietSuccess_ensureWordlist : quietSuccess (ensureWordlist env).
Proof.
  unfold ensureWordlist.
  destruct (os_UserHomeDir env); [| done].
  destruct (os_StatNotExist env _); [| intros ? _; reflexivity].
  destruct (os_MkdirAll env _); [done |].
  destruct (downloadFile env _ _); [done |]. intros ? _. reflexivity.
Qed.

Lemma collectBuckets_readable path suffixes keywords : ∀ buckets,
  os_ReadLines env path = Ok suffixes →
  collectBuckets env path buckets keywords
  = ([], inr (buckets ++ (keywords ≫= λ kw, generate kw suffixes))).
Proof.
  induction keywords as [|kw keywords IH]; intros buckets Hread; cbn [collectBuckets].
  - by rewrite app_nil_r.
  - unfold generatePermutations, readLinesFromFile. rewrite Hread.
    cbn [bind ret app]. rewrite (IH _ Hread). cbn [app].
    by rewrite bind_cons, <- app_assoc.
Qed.

Lemma quietSuccess_collectBuckets path keywords : ∀ buckets,
  quietSuccess (collectBuckets env path buckets keywords).
Proof.
  induction keywords as [|kw keywords IH]; intros buckets; cbn [collectBuckets].
  - done.
  - apply quietSuccess_bind; [| auto].
    apply quietSuccess_bind; [apply quietSuccess_readLinesFromFile | done].
Qed.
End SetupMore.

(** X12: a keyword file takes precedence: with [-l] given, the [-n] keyword
    has no influence on the start-up. *)
Theorem setup_keyword_file_first env f k :
  keywordList f ≠ EmptyString →
  setup env (setKeyword f k) = setup env f.
Proof.
  intros Hl%String.eqb_neq. unfold setup. cbn [setKeyword keyword keywordList wordlist
    outFile subprocesses verbose].
  by rewrite Hl, !andb_false_r.
Qed.

Lemma setup_keyword_file_first_witness :
  setup mock (setKeyword flagsKeywordFile "other") = setup mock flagsKeywordFile.
Proof. apply (setup_keyword_file_first mock flagsKeywordFile "other"). discriminate. Defined.

(** X13: with a readable wordlist the master list is the concatenation, in the
    order of the keywords, of each keyword's candidates; nothing is removed
    across keywords and nothing is printed. *)
Theorem collectBuckets_concat env path suffixes keywords :
  os_ReadLines env path = Ok suffixes →
  collectBuckets env path [] keywords
  = ([], inr (keywords ≫= λ kw, generate kw suffixes)).
Proof. intros Hread. by rewrite (collectBuckets_readable env path suffixes). Qed.

Lemma collectBuckets_concat_witness :
  collectBuckets mock "words.txt" [] ["a"; "a"]
  = ([], inr (["a"; "a"] ≫= λ kw, generate kw ["dev"; "prod"])).
Proof. apply (collectBuckets_concat mock "words.txt" ["dev"; "prod"]). reflexivity. Defined.

Lemma quietSuccess_elim {A} (m : M A) evs a :
  quietSuccess m → m = (evs, inr a) → existsb isError evs = false.
Proof. intros Hq ->. by apply (Hq a). Qed.

Lemma beforeSummary_elim {A} (m : M A) evs r :
  beforeSummary m → m = (evs, r) → existsb isSummary evs = false.
Proof. by intros [Hq _] ->. Qed.

(** X14: when the start-up hands over to the scan, no error has been printed,
    the summary is the last thing printed and its count is the number of
    candidates handed over, a keyword or a keyword file was given, and the
    limit, the verbose flag and the output file are those of the flags. *)
Theorem setup_starts_scan env f evs scan :
  setup env f = (evs, inr scan) →
  existsb isError evs = false
  ∧ (∃ evs0 n, evs = evs0 ++ [EPrint (summary (length (scan_buckets scan)) n)]
               ∧ existsb isSummary evs0 = false)
  ∧ (keyword f ≠ EmptyString ∨ keywordList f ≠ EmptyString)
  ∧ scan_limit scan = subprocesses f
  ∧ scan_verbose scan = verbose f
  ∧ scan_outputFile scan
    = (if String.eqb (outFile f) EmptyString then None else Some (outFile f)).
Proof.
  unfold setup. destruct (_ && _) eqn:Hmissing; [done |].
  intros (evs1 & wordlistPath & evs' & Hwl & H & ->)%bind_inr.
  apply bind_inr in H as (evs2 & keywords & evs'' & Hkw & H & ->).
  apply bind_inr in H as (evs3 & buckets & evs4 & Hcb & H & ->).
  assert (existsb isError evs1 = false ∧ existsb isSummary evs1 = false) as [He1 Hs1].
  { destruct (String.eqb (wordlist f) EmptyString).
    - split; [eapply quietSuccess_elim; eauto using quietSuccess_ensureWordlist |].
      eapply beforeSummary_elim; eauto using beforeSummary_ensureWordlist.
    - by injection Hwl as <- _. }
  assert (existsb isError evs2 = false ∧ existsb isSummary evs2 = false) as [He2 Hs2].
  { destruct (negb (String.eqb (keywordList f) EmptyString)).
    - split; [eapply quietSuccess_elim; eauto using quietSuccess_readLinesFromFile |].
      eapply beforeSummary_elim; eauto using beforeSummary_readLinesFromFile.
    - destruct (negb _); by injection Hkw as <- _. }
  assert (existsb isError evs3 = false ∧ existsb isSummary evs3 = false) as [He3 Hs3].
  { split; [eapply quietSuccess_elim; eauto using quietSuccess_collectBuckets |].
    eapply beforeSummary_elim; eauto using beforeSummary_collectBuckets. }
  assert (keyword f ≠ EmptyString ∨ keywordList f ≠ EmptyString) as Hgiven.
  { apply andb_false_iff in Hmissing as [H1 | H1]; apply String.eqb_neq in H1; auto. }
  destruct (String.eqb (outFile f) EmptyString); cbn [negb] in H.
  - injection H as <- <-. cbn [scan_buckets scan_limit scan_verbose scan_outputFile].
    split; [by rewrite !existsb_app, He1, He2, He3 |].
    split; [| done].
    exists (evs1 ++ evs2 ++ evs3), (length keywords).
    split; [by rewrite <- !app_assoc |]. by rewrite !existsb_app, Hs1, Hs2, Hs3.
  - destruct (os_Create env (outFile f)); [done |].
    injection H as <- <-. cbn [scan_buckets scan_limit scan_verbose scan_outputFile].
    split; [by rewrite !existsb_app, He1, He2, He3 |].
    split; [| done].
    exists (evs1 ++ evs2 ++ evs3), (length keywords).
    split; [by rewrite <- !app_assoc |]. by rewrite !existsb_app, Hs1, Hs2, Hs3.
Qed.

Lemma setup_starts_scan_witness :
  ∃ evs0 n,
    (setup mock flagsKeywordFile).1
    = evs0 ++ [EPrint (summary 32 n)] ∧ existsb isSummary evs0 = false.
Proof.
  refine (proj1 (proj2 (setup_starts_scan mock flagsKeywordFile
           (setup mock flagsKeywordFile).1
           {| scan_buckets := ["acme"; "globex"] ≫= λ kw, generate kw ["dev"; "prod"];
              scan_outputFile := None; scan_limit := 10; scan_verbose := false |} _))).
  vm_compute. reflexivity.
Defined.

(** X15: with an empty keyword file the wordlist is never opened: the
    start-up hands zero candidates to the scan, whether or not the wordlist
    can be read. *)
Theorem setup_no_keywords env f :
  keywordList f ≠ EmptyString → wordlist f ≠ EmptyString →
  os_ReadLines env (keywordList f) = Ok [] →
  outFile f = EmptyString →
  setup env f
  = ([EPrint (summary 0 0)],
     inr {| scan_buckets := []; scan_outputFile := None;
            scan_limit := subprocesses f; scan_verbose := verbose f |}).
Proof.
  intros Hl%String.eqb_neq Hw%String.eqb_neq Hread Ho.
  unfold setup, readLinesFromFile. by rewrite Hl, Hw, andb_false_r, Hread, Ho.
Qed.

Lemma setup_no_keywords_witness :
  os_ReadLines mockNoKeywords "missing.txt"
  = Err "open missing.txt: no such file or directory"
  ∧ setup mockNoKeywords flagsNoKeywords
    = ([EPrint (summary 0 0)],
       inr {| scan_buckets := []; scan_outputFile := None;
              scan_limit := 10; scan_verbose := false |}).
Proof.
  split; [reflexivity |].
  apply (setup_no_keywords mockNoKeywords flagsNoKeywords);
    [discriminate | discriminate | reflexivity | reflexivity].
Defined.

(** X16: the wordlist path that [ensureWordlist] returns is the fixed file
    name joined to the home directory; no error has been printed, and either
    [os.Stat] did not report the file as missing ([os.IsNotExist] false, which
    is also the case when [os.Stat] fails for another reason), or it did, the
    directory was created and the body of a 200 answer from the wordlist URL
    was written to the path. *)
Theorem ensureWordlist_path env evs path :
  ensureWordlist env = (evs, inr path) →
  existsb isError evs = false
  ∧ ∃ homeDir,
      os_UserHomeDir env = Ok homeDir
      ∧ path = filepath_Join env homeDir wordlistFilename
      ∧ (os_StatNotExist env path = false
         ∨ (os_StatNotExist env path = true
            ∧ os_MkdirAll env (filepath_Dir env path) = None
            ∧ ∃ resp,
                http_Get env wordlistURL = Ok resp ∧ StatusCode resp = 200%Z
                ∧ BodyErr resp = None
                ∧ ioutil_WriteFile env path (Body resp) = None)).
Proof.
  intros Hens.
  split; [eapply quietSuccess_elim; eauto using quietSuccess_ensureWordlist |].
  revert Hens. unfold ensureWordlist.
  destruct (os_UserHomeDir env) as [homeDir|err]; [| done].
  exists homeDir. split; [done |].
  destruct (os_StatNotExist env _) eqn:Hstat.
  - destruct (os_MkdirAll env _) eqn:Hmk; [done |].
    destruct (downloadFile env _ _) eqn:Hdl; [done |].
    injection Hens as _ <-. split; [done |]. right. split; [done |]. split; [done |].
    unfold downloadFile in Hdl.
    destruct (http_Get env wordlistURL) as [resp|err]; [| done].
    destruct (Z.eqb_spec (StatusCode resp) 200) as [Hs|Hs]; [| done]. cbn [negb] in Hdl.
    destruct (BodyErr resp) eqn:Hbody; [done |].
    destruct (os_MkdirAll env (filepath_Dir env _)); [done |].
    exists resp. repeat split; done.
  - injection Hens as _ <-. split; [done |]. by left.
Qed.

Lemma ensureWordlist_path_witness :
  existsb isError (ensureWordlist mock).1 = false
  ∧ ∃ homeDir,
      os_UserHomeDir mock = Ok homeDir
      ∧ "/home/user/.config/gcpenum/words.txt" = filepath_Join mock homeDir wordlistFilename
      ∧ (os_StatNotExist mock "/home/user/.config/gcpenum/words.txt" = false
         ∨ (os_StatNotExist mock "/home/user/.config/gcpenum/words.txt" = true
            ∧ os_MkdirAll mock (filepath_Dir mock "/home/user/.config/gcpenum/words.txt") = None
            ∧ ∃ resp,
                http_Get mock wordlistURL = Ok resp ∧ StatusCode resp = 200%Z
                ∧ BodyErr resp = None
                ∧ ioutil_WriteFile mock "/home/user/.config/gcpenum/words.txt" (Body resp)
                  = None)).
Proof.
  apply (ensureWordlist_path mock (ensureWordlist mock).1). vm_compute. reflexivity.
Defined.

Section ExitStatus.
Context (env : Env).

Lemma exitsOne_readLinesFromFile path evs h :
  readLinesFromFile env path = (evs, inl h) → exitsOne h.
Proof.
  unfold readLinesFromFile. destruct (os_ReadLines env path); [done |].
  intros [= _ <-]. by eexists.
Qed.

Lemma exitsOne_ensureWordlist evs h :
  ensureWordlist env = (evs, inl h) → exitsOne h.
Proof.
  unfold ensureWordlist.
  destruct (os_UserHomeDir env); [| intros [= _ <-]; by eexists].
  destruct (os_StatNotExist env _); [| done].
  destruct (os_MkdirAll env _); [intros [= _ <-]; by eexists |].
  destruct (downloadFile env _ _); [intros [= _ <-]; by eexists | done].
Qed.

Lemma exitsOne_collectBuckets path keywords : ∀ buckets evs h,
  collectBuckets env path buckets keywords = (evs, inl h) → exitsOne h.
Proof.
  induction keywords as [|kw keywords IH]; intros buckets evs h; cbn [collectBuckets].
  - done.
  - intros [H | (evs1 & perms & evs2 & _ & H)]%bind_inl; [| eauto].
    apply bind_inl in H as [H | (evs1 & s & evs2 & _ & H)]; [| done].
    eauto using exitsOne_readLinesFromFile.
Qed.

Lemma exitsOne_exitStatus h : exitsOne h → exitStatus h.
Proof. intros (w & -> & H1 & H2). unfold exitStatus. cbn [why]. by destruct w. Qed.
End ExitStatus.

(** X17: a halted start-up leaves the program by [os.Exit(1)] when the home
    directory, the wordlist or the keyword file is at fault, and by a plain
    [return] of [main] when the input is missing or the output file cannot be
    created. *)
Theorem setup_exit_status env f evs h :
  setup env f = (evs, inl h) → exitStatus h.
Proof.
  unfold setup. destruct (_ && _); [by intros [= _ <-] |].
  intros [H | (evs1 & wordlistPath & evs' & _ & H)]%bind_inl.
  { apply exitsOne_exitStatus.
    destruct (String.eqb _ _); [eauto using exitsOne_ensureWordlist | done]. }
  apply bind_inl in H as [H | (evs2 & keywords & evs'' & _ & H)].
  { apply exitsOne_exitStatus.
    destruct (negb _); [eauto using exitsOne_readLinesFromFile |].
    by destruct (negb _). }
  apply bind_inl in H as [H | (evs3 & buckets & evs4 & _ & H)].
  { apply exitsOne_exitStatus. eauto using exitsOne_collectBuckets. }
  revert H. cbn [bind print].
  destruct (negb _); [| done].
  destruct (os_Create env _); [| done].
  by intros [= _ <-].
Qed.

Lemma setup_exit_status_witness : exitStatus (Return OutputUncreatable).
Proof.
  apply (setup_exit_status mock flagsUncreatable (setup mock flagsUncreatable).1).
  vm_compute. reflexivity.
Defined.

(** X18: without a keyword and without a keyword file the start-up prints the
    error and the usage and returns; it asks nothing of the file system or the
    network, so it is the same in every environment. *)
Theorem setup_missing_input_everywhere env env' f :
  keyword f = EmptyString → keywordList f = EmptyString →
  setup env f = setup env' f
  ∧ (setup env f).1
    = [ EPrint ("ERROR: Provide either a keyword (-n) or a keyword list file (-l)" +:+ LF);
        EUsage ]
  ∧ (setup env f).2 = inl (Return MissingInput).
Proof.
  intros Hk Hl.
  rewrite (setup_missing_input env f Hk Hl), (setup_missing_input env' f Hk Hl). done.
Qed.

Lemma setup_missing_input_everywhere_witness :
  setup mock flagsNothing = setup mockNoKeywords flagsNothing
  ∧ (setup mock flagsNothing).1
    = [ EPrint ("ERROR: Provide either a keyword (-n) or a keyword list file (-l)" +:+ LF);
        EUsage ]
  ∧ (setup mock flagsNothing).2 = inl (Return MissingInput).
Proof. apply (setup_missing_input_everywhere mock mockNoKeywords flagsNothing); reflexivity. Defined.

(** ** The scan: edge cases and what every candidate gets *)

Section ScanMore.
Context (env : Env) (verbose : bool).
Implicit Types (st : state) (l : label) (tr : list label) (g : goroutine).

Lemma stream_main_only tr : (∀ l, l ∈ tr → owner l = None) → stream tr = [].
Proof.
  induction tr as [|l tr IH]; intros H; [done |].
  pose proof (H l (list_elem_of_here _ _)) as Hl.
  unfold stream in *. destruct l; try done; cbn [omap list_omap];
    apply IH; intros l' Hl'; apply H; by right.
Qed.

Lemma allWaiting_step buckets tr st l st' :
  buckets ≠ [] →
  countersOk 0 st → mainOk buckets st →
  step env verbose 0 st l st' → allWaiting tr st → allWaiting (tr ++ [l]) st'.
Proof.
  intros Hne (_ & _ & Hwg) Hmain Hstep (Hwait & Hown & Hcl & Hex).
  destruct Hstep as [st0 b rest Hm|st0 Hm|st0 Hm Hw|st0 Hm|st0 i g l0 next Hm Hg Hu];
    unfold allWaiting; cbn [units main_pc setMain setUnit].
  - repeat split; try done.
    + intros i g. rewrite lookup_snoc_unit. case_decide; [by intros [= <-] | apply Hwait].
    + intros l [Hl | ->%list_elem_of_singleton]%elem_of_app; auto.
  - repeat split; try done.
    intros l [Hl | ->%list_elem_of_singleton]%elem_of_app; auto.
  - exfalso. unfold mainOk in Hmain. rewrite Hm in Hmain.
    destruct (units st0) as [|g gs] eqn:Hunits; [by destruct Hne |].
    rewrite Hw in Hwg. symmetry in Hwg.
    pose proof (count_zero active _ 0 g Hwg eq_refl) as Ha.
    specialize (Hwait 0 g eq_refl).
    unfold active in Ha. by rewrite Hwait in Ha.
  - done.
  - exfalso. specialize (Hwait i g Hg).
    inversion Hu; subst; try congruence. lia.
Qed.
End ScanMore.

(** X19: with a limit of zero [sem] is an unbuffered channel that nobody
    receives from: no goroutine ever gets past its acquire, so nothing is
    requested and nothing is sent, and [main] never gets past [wg.Wait()]. *)
Theorem scan_without_permits env verbose buckets tr st :
  buckets ≠ [] →
  runs env verbose 0 buckets tr st →
  stream tr = []
  ∧ (∀ l, l ∈ tr → owner l = None)
  ∧ (∀ i g, units st !! i = Some g → g_pc g = UWait)
  ∧ main_pc st ≠ MClosed ∧ main_pc st ≠ MExit
  ∧ length tr ≤ length buckets + 1.
Proof.
  intros Hne Hr.
  assert (allWaiting tr st) as (Hwait & Hown & Hcl & Hex).
  { revert tr st Hr. apply runs_ind.
    - repeat split; try done. intros l Hl. by apply elem_of_nil in Hl.
    - intros tr st l st' Hr IH Hstep.
      eapply allWaiting_step; eauto using countersOk_runs, mainOk_runs. }
  split; [by apply stream_main_only |]. do 4 (split; [done |]).
  pose proof (stepsLeft_runs env verbose 0 buckets tr st Hr) as Hlen.
  pose proof (mainOk_runs env verbose 0 buckets tr st Hr) as Hmain.
  clear Hr Hown. unfold stepsLeft, mainOk in *. cbn [init main_pc units sum_list_with] in Hlen.
  assert (sum_list_with (unitSteps env verbose) (units st)
          = sum_list_with (λ b, 3 + length (checkBucket env b verbose)) (g_bucket <$> units st))
    as Hunits.
  { assert (∀ g, g ∈ units st → g_pc g = UWait) as Hall.
    { intros g (i & Hi)%list_elem_of_lookup. eauto. }
    clear -Hall. induction (units st) as [|g gs IH]; [done |].
    cbn [fmap list_fmap sum_list_with]. rewrite IH by (intros; apply Hall; by right).
    unfold unitSteps. by rewrite (Hall g) by by left. }
  assert (∀ bs, sum_list_with (λ b, 4 + length (checkBucket env b verbose)) bs
                = length bs
                  + sum_list_with (λ b, 3 + length (checkBucket env b verbose)) bs) as Hsum.
  { induction bs as [|b bs IH]; [done |]. cbn [sum_list_with length]. rewrite IH. lia. }
  destruct (main_pc st) as [rest| | |] eqn:Hm; try done.
  - subst buckets. rewrite Hunits in Hlen. cbn [mainSteps] in Hlen.
    rewrite !Hsum, sum_list_with_app, !length_app, length_fmap in *. lia.
  - subst buckets. rewrite Hunits in Hlen. cbn [mainSteps] in Hlen.
    rewrite !Hsum, length_fmap in *. lia.
Qed.

Lemma scan_without_permits_witness :
  stream [LSpawn 0 "listable"; LSink] = []
  ∧ (∀ l, l ∈ [LSpawn 0 "listable"; LSink] → owner l = None)
  ∧ (∀ i g, [ {| g_bucket := "listable"; g_pc := UWait |} ] !! i = Some g → g_pc g = UWait)
  ∧ MWait ≠ MClosed ∧ MWait ≠ MExit
  ∧ length [LSpawn 0 "listable"; LSink] ≤ length ["listable"] + 1.
Proof.
  apply (scan_without_permits mock false ["listable"] [LSpawn 0 "listable"; LSink]
           {| main_pc := MWait; units := [ {| g_bucket := "listable"; g_pc := UWait |} ];
              sem := 0; wg := 1 |}).
  - discriminate.
  - reflexivity.
Defined.

Section EmptyScan.
Context (env : Env) (verbose : bool) (limit : nat).

Lemma emptyScan_step tr st l st' :
  step env verbose limit st l st' → emptyScan tr st → emptyScan (tr ++ [l]) st'.
Proof.
  intros Hstep [Hunits Hcases]. unfold emptyScan.
  destruct Hstep as [st0 b rest Hm|st0 Hm|st0 Hm Hw|st0 Hm|st0 i g l0 next Hm Hg Hu];
    cbn [units main_pc setMain setUnit].
  - exfalso. destruct Hcases as [[_ H] | [[_ H] | [[_ H] | [_ H]]]]; congruence.
  - split; [done |].
    destruct Hcases as [[-> H] | [[_ H] | [[_ H] | [_ H]]]]; try congruence. auto.
  - split; [done |].
    destruct Hcases as [[_ H] | [[-> H] | [[_ H] | [_ H]]]]; try congruence. auto.
  - split; [done |].
    destruct Hcases as [[_ H] | [[_ H] | [[-> H] | [_ H]]]]; try congruence. auto 6.
  - exfalso. by rewrite Hunits in Hg.
Qed.
End EmptyScan.

(** X20: without candidates the scan needs no permit and sends nothing: its
    only schedule starts the sink, closes [output] and returns, whatever the
    limit. *)
Theorem scan_of_nothing env verbose limit tr st :
  runs env verbose limit [] tr st →
  tr `prefix_of` [LSink; LClose; LExit]
  ∧ stream tr = []
  ∧ units st = []
  ∧ runs env verbose limit [] [LSink; LClose; LExit]
      {| main_pc := MExit; units := []; sem := 0; wg := 0 |}.
Proof.
  intros Hr.
  assert (emptyScan tr st) as [Hunits Hcases].
  { revert tr st Hr. apply runs_ind.
    - split; [done |]. by left.
    - intros tr st l st' _ IH Hstep. by apply (emptyScan_step env verbose limit tr st). }
  split; [| split; [| split; [done | reflexivity]]].
  - destruct Hcases as [[-> _] | [[-> _] | [[-> _] | [-> _]]]].
    + apply prefix_nil.
    + by exists [LClose; LExit].
    + by exists [LExit].
    + done.
  - by destruct Hcases as [[-> _] | [[-> _] | [[-> _] | [-> _]]]].
Qed.

Lemma scan_of_nothing_witness :
  [LSink; LClose] `prefix_of` [LSink; LClose; LExit]
  ∧ stream [LSink; LClose] = []
  ∧ ([] : list goroutine) = []
  ∧ runs mock true 0 [] [LSink; LClose; LExit]
      {| main_pc := MExit; units := []; sem := 0; wg := 0 |}.
Proof.
  apply (scan_of_nothing mock true 0 [LSink; LClose]
           {| main_pc := MClosed; units := []; sem := 0; wg := 0 |}).
  reflexivity.
Defined.

Section Acts.
Context (env : Env) (verbose : bool) (limit : nat).
Implicit Types (st : state) (l : label) (tr : list label) (g : goroutine).

Lemma actsOf_snoc i tr l : actsOf i (tr ++ [l]) = actsOf i tr ++ actsOf i [l].
Proof. apply omap_app. Qed.

Lemma actsOf_other i l : owner l ≠ Some i → actsOf i [l] = [].
Proof.
  intros Ho. unfold actsOf. destruct l; try done; cbn [omap list_omap];
    (case_decide; [subst; by destruct Ho | done]).
Qed.

Lemma actsOf_none i tr : (∀ l, l ∈ tr → owner l ≠ Some i) → actsOf i tr = [].
Proof.
  induction tr as [|l tr IH] using rev_ind; intros H; [done |].
  rewrite actsOf_snoc, IH, actsOf_other; [done | |].
  - apply H, elem_of_app. right. by left.
  - intros l' Hl'. apply H, elem_of_app. by left.
Qed.

Lemma ustep_acts bucket m i pc sw l pc' sw' :
  ustep env verbose limit bucket m i (pc, sw.1, sw.2) l (pc', sw'.1, sw'.2) →
  actsOf i [l] ++ pending env verbose {| g_bucket := bucket; g_pc := pc' |}
  = pending env verbose {| g_bucket := bucket; g_pc := pc |}.
Proof.
  inversion 1; subst; try done; unfold actsOf; cbn [omap list_omap pending g_pc];
    by rewrite decide_True.
Qed.

Lemma actsOk_step tr st l st' :
  step env verbose limit st l st' → traceOk tr st →
  actsOk env verbose tr st → actsOk env verbose (tr ++ [l]) st'.
Proof.
  intros Hstep Htr Hok i h. rewrite actsOf_snoc.
  destruct Hstep as [st0 b rest Hm|st0 Hm|st0 Hm Hw|st0 Hm|st0 i0 g l0 next Hm Hg Hu];
    cbn [units setMain setUnit]; rewrite ?(actsOf_other i _) by done;
    rewrite ?app_nil_r; try apply Hok.
  - rewrite lookup_snoc_unit. case_decide as Hi; [| apply Hok].
    intros [= <-]. subst i. specialize (Htr (length (units st0))).
    rewrite (lookup_ge_None_2 (units st0)) in Htr by lia.
    by rewrite actsOf_none.
  - destruct (decide (i = i0)) as [->|Hne].
    + rewrite list_lookup_insert_eq by by eapply lookup_lt_Some.
      intros [= <-]. specialize (Hok i0 g Hg).
      destruct g as [b pc]. destruct next as [[pc' s'] w'].
      cbn [g_bucket g_pc fst snd] in *. rewrite <- Hok, <- app_assoc. f_equal.
      apply (ustep_acts b (main_pc st0) i0 pc (sem st0, wg st0) l0 pc' (s', w')).
      exact Hu.
    + rewrite list_lookup_insert_ne by done. intros Hh.
      rewrite actsOf_other, app_nil_r; [by apply Hok |].
      apply ustep_owner in Hu. congruence.
Qed.

Lemma actsOk_runs buckets tr st :
  runs env verbose limit buckets tr st → actsOk env verbose tr st.
Proof.
  revert tr st. apply runs_ind.
  - intros i g Hg. done.
  - eauto using actsOk_step, traceOk_runs.
Qed.
End Acts.

(** X21: once [output] is closed every candidate of the list has been probed
    exactly once: what goroutine [i] has requested and sent is, in order, the
    [checkBucket] of the [i]-th candidate, and no step belongs to a goroutine
    beyond the list. *)
Theorem every_candidate_once env verbose limit buckets tr st :
  runs env verbose limit buckets tr st →
  main_pc st = MClosed ∨ main_pc st = MExit →
  (∀ i b, buckets !! i = Some b → actsOf i tr = checkBucket env b verbose)
  ∧ (∀ l i, l ∈ tr → owner l = Some i → i < length buckets).
Proof.
  intros Hr Hcl.
  pose proof (countersOk_runs env verbose limit buckets tr st Hr) as Hc.
  pose proof (mainOk_runs env verbose limit buckets tr st Hr) as Hm.
  assert (g_bucket <$> units st = buckets) as Hb.
  { unfold mainOk in Hm. destruct Hcl as [E | E]; rewrite E in Hm; tauto. }
  split.
  - intros i b Hi. rewrite <- Hb, list_lookup_fmap in Hi.
    destruct (units st !! i) as [g|] eqn:Hg; [| done]. injection Hi as <-.
    pose proof (actsOk_runs env verbose limit buckets tr st Hr i g Hg) as Ha.
    destruct (closed_all_done limit buckets st i g Hc Hm Hcl Hg) as [Hpc | Hpc];
      unfold pending in Ha; rewrite Hpc, app_nil_r in Ha; done.
  - intros l i Hl Ho.
    pose proof (traceOk_runs env verbose limit buckets tr st Hr i) as Htr.
    destruct (decide (i < length buckets)) as [|Hge]; [done |].
    rewrite <- Hb, length_fmap in Hge.
    rewrite (lookup_ge_None_2 (units st)) in Htr by lia.
    by destruct (Htr l Hl).
Qed.

Lemma every_candidate_once_witness :
  actsOf 1 (scheduleOf mock false 2 ["listable"; "restricted"] turnsOfTwo)
  = checkBucket mock "restricted" false.
Proof.
  refine (proj1 (every_candidate_once mock false 2 ["listable"; "restricted"]
                   (scheduleOf mock false 2 ["listable"; "restricted"] turnsOfTwo)
                   {| main_pc := MExit;
                      units := [ {| g_bucket := "listable"; g_pc := UEnd |};
                                 {| g_bucket := "restricted"; g_pc := UEnd |} ];
                      sem := 0; wg := 0 |} _ _) 1 "restricted" _).
  - vm_compute. reflexivity.
  - right. reflexivity.
  - reflexivity.
Defined.

Section MainTrace.
Context (env : Env) (verbose : bool) (limit : nat).

Lemma mainTrace_step tr st l st' :
  step env verbose limit st l st' → mainTrace tr st → mainTrace (tr ++ [l]) st'.
Proof.
  unfold mainTrace.
  intros [st0 b rest Hm|st0 Hm|st0 Hm Hw|st0 Hm|st0 i g l0 next Hm Hg Hu];
    cbn [main_pc setMain setUnit]; rewrite ?Hm;
    rewrite ?elem_of_app, ?list_elem_of_singleton.
  - intros [H1 H2]. split; intros [? | ?]; done.
  - intros [H1 H2]. split; [by right |]. intros [? | ?]; done.
  - intros [H1 H2]. split; [by left | by right].
  - intros [H1 H2]. split; by left.
  - assert (l0 ≠ LSink ∧ l0 ≠ LClose) as [Hs Hc] by (by inversion Hu).
    destruct (main_pc st0); rewrite !elem_of_app, !list_elem_of_singleton;
      intros [H1 H2]; split; first [tauto | intros [? | ?]; done].
Qed.

Lemma mainTrace_runs buckets tr st :
  runs env verbose limit buckets tr st → mainTrace tr st.
Proof.
  revert tr st. apply runs_ind.
  - split; intros H; by apply elem_of_nil in H.
  - eauto using mainTrace_step.
Qed.
End MainTrace.

(** X22: the sink is started after the spawning loop and [output] is closed
    after the last send: when a line is received, every candidate of the list
    already has its goroutine, the sink is running and [output] is open. *)
Theorem line_between_sink_and_close env verbose limit buckets tr1 i line tr2 st :
  runs env verbose limit buckets (tr1 ++ LSend i line :: tr2) st →
  LSink ∈ tr1 ∧ (LClose ∉ tr1) ∧
  ∃ st1, runs env verbose limit buckets tr1 st1 ∧ g_bucket <$> units st1 = buckets.
Proof.
  intros (st1 & Hr1 & Hex)%runs_prefix. cbn [exec] in Hex.
  destruct (fire env verbose limit st1 (LSend i line)) as [st2|] eqn:Hf; [| done].
  cbn [fire] in Hf.
  pose proof (mainTrace_runs env verbose limit buckets tr1 st1 Hr1) as Hmt.
  pose proof (mainOk_runs env verbose limit buckets tr1 st1 Hr1) as Hmo.
  unfold mainTrace, mainOk in *.
  destruct (main_pc st1); try done.
  destruct Hmt as [H1 H2]. eauto.
Qed.

Lemma line_between_sink_and_close_witness :
  LSink ∈ firstn 6 (scheduleOf mock false 2 ["listable"; "restricted"] turnsOfTwo)
  ∧ (LClose ∉ firstn 6 (scheduleOf mock false 2 ["listable"; "restricted"] turnsOfTwo))
  ∧ ∃ st1,
      runs mock false 2 ["listable"; "restricted"]
        (firstn 6 (scheduleOf mock false 2 ["listable"; "restricted"] turnsOfTwo)) st1
      ∧ g_bucket <$> units st1 = ["listable"; "restricted"].
Proof.
  apply (line_between_sink_and_close mock false 2 ["listable"; "restricted"] _ 0
           "EXISTS: https://storage.googleapis.com/listable/"
           (skipn 7 (scheduleOf mock false 2 ["listable"; "restricted"] turnsOfTwo))
           {| main_pc := MExit;
              units := [ {| g_bucket := "listable"; g_pc := UEnd |};
                         {| g_bucket := "restricted"; g_pc := UEnd |} ];
              sem := 0; wg := 0 |}).
  vm_compute. reflexivity.
Defined.

(** * Start-up: the fatal errors, decided by the environment *)

Section SetupOutcome.
Context (env : Env).

Lemma snd_bind {A B} (m : M A) (k : A → M B) :
  (bind m k).2 = match m.2 with inl h => inl h | inr a => (k a).2 end.
Proof. destruct m as [evs [h|a]]; cbn; [done |]. by destruct (k a). Qed.

(** How a computation of the start-up ends: with a fatal error, or well. *)
Lemma ending_bind {A B} (m : M A) (k : A → M B) :
  match (bind m k).2 with inl h => Some (why h) | inr _ => None end
  = match m.2 with
    | inl h => Some (why h)
    | inr a => match (k a).2 with inl h => Some (why h) | inr _ => None end
    end.
Proof. rewrite snd_bind. by destruct m.2. Qed.

Lemma ending_ensureWordlist :
  match (ensureWordlist env).2 with inl h => inl (why h) | inr path => inr path end
  = defaultWordlist env.
Proof.
  unfold ensureWordlist, defaultWordlist.
  destruct (os_UserHomeDir env); [| done].
  destruct (os_StatNotExist env _); [| done].
  destruct (os_MkdirAll env _); [done |].
  by destruct (downloadFile env _ _).
Qed.

Lemma snd_readLinesFromFile path :
  (readLinesFromFile env path).2
  = match os_ReadLines env path with
    | Err _ => inl (Exit (FileUnreadable path) 1)
    | Ok lines => inr lines
    end.
Proof. unfold readLinesFromFile. by destruct (os_ReadLines env path). Qed.

Lemma snd_collectBuckets path buckets keywords :
  (collectBuckets env path buckets keywords).2
  = match keywords, os_ReadLines env path with
    | _ :: _, Err _ => inl (Exit (FileUnreadable path) 1)
    | _, Ok suffixes => inr (buckets ++ (keywords ≫= λ kw, generate kw suffixes))
    | [], Err _ => inr buckets
    end.
Proof.
  destruct (os_ReadLines env path) as [suffixes|err] eqn:Hread.
  - rewrite (collectBuckets_readable env path suffixes _ _ Hread). by destruct keywords.
  - destruct keywords as [|kw keywords]; [done |].
    cbn [collectBuckets]. unfold generatePermutations, readLinesFromFile.
    by rewrite Hread.
Qed.

Lemma isSummary_summary n k : isSummary (EPrint (summary n k)) = true.
Proof. reflexivity. Qed.

(** The end of the start-up is the one the environment decides. *)
Lemma setup_ending f :
  match (setup env f).2 with inl h => Some (why h) | inr _ => None end
  = firstFatal env f.
Proof.
  unfold setup, firstFatal.
  destruct (String.eqb (keyword f) EmptyString && String.eqb (keywordList f) EmptyString)
    eqn:Hmissing; [done |].
  rewrite ending_bind.
  destruct (String.eqb (wordlist f) EmptyString);
    [rewrite <- ending_ensureWordlist;
     destruct (ensureWordlist env).2 as [h|path]; [done |]
    | cbn [ret snd] ].
  all: rewrite ending_bind.
  all: destruct (String.eqb (keywordList f) EmptyString) eqn:Hl; cbn [negb];
    [rewrite andb_true_r in Hmissing; rewrite Hmissing; cbn [negb ret snd]
    | rewrite snd_readLinesFromFile;
      destruct (os_ReadLines env (keywordList f)) as [keywords|err]; [| done] ].
  all: rewrite ending_bind, snd_collectBuckets.
  all: try destruct keywords as [|kw keywords].
  all: destruct (os_ReadLines env _) as [suffixes|err']; try done.
  all: rewrite ending_bind; cbn [print snd]; rewrite ending_bind.
  all: destruct (String.eqb (outFile f) EmptyString); [done |]; cbn [negb].
  all: by destruct (os_Create env (outFile f)).
Qed.

(** What a start-up that hands over to the scan has printed: no ERROR
    message, and the summary. *)
Lemma setup_success_report f evs scan :
  setup env f = (evs, inr scan) →
  existsb isError evs = false ∧ existsb isSummary evs = true.
Proof.
  unfold setup. destruct (_ && _); [done |].
  intros (evs1 & wordlistPath & evs' & Hwl & H & ->)%bind_inr.
  apply bind_inr in H as (evs2 & keywords & evs'' & Hkw & H & ->).
  apply bind_inr in H as (evs3 & buckets & evs4 & Hcb & H & ->).
  assert (existsb isError evs1 = false) as He1.
  { destruct (String.eqb (wordlist f) EmptyString).
    - eapply quietSuccess_elim; eauto using quietSuccess_ensureWordlist.
    - by injection Hwl as <- _. }
  assert (existsb isError evs2 = false) as He2.
  { destruct (negb (String.eqb (keywordList f) EmptyString)).
    - eapply quietSuccess_elim; eauto using quietSuccess_readLinesFromFile.
    - destruct (negb _); by injection Hkw as <- _. }
  assert (existsb isError evs3 = false) as He3.
  { eapply quietSuccess_elim; eauto using quietSuccess_collectBuckets. }
  apply bind_inr in H as (evs5 & [] & evs6 & Hp & H & ->).
  injection Hp as <-.
  assert (existsb isError evs6 = false) as He6.
  { apply bind_inr in H as (evs7 & outputFile & evs8 & Ho & H & ->).
    injection H as <- _. rewrite app_nil_r.
    destruct (String.eqb (outFile f) EmptyString); cbn [negb] in Ho;
      [| destruct (os_Create env (outFile f)); [done |] ];
      by injection Ho as <- _. }
  rewrite !existsb_app, He1, He2, He3, He6. split; [done |].
  cbn [existsb]. rewrite isSummary_summary. by rewrite !orb_true_r.
Qed.
End SetupOutcome.

(** C9, amended: the environment decides the fatal errors of the start-up, in
    this order: no keyword and no keyword file; no default wordlist when [-w]
    is absent; an unreadable keyword file; an unreadable wordlist when there
    is at least one keyword; an output file that cannot be created.  With the
    first of them the start-up halts for that reason, an ERROR message is
    printed, the summary is printed before it exactly when the reason is the
    output file, and no scan is started; with none of them the start-up
    prints the summary and hands over to the scan. *)
Theorem setup_fatal env f :
  match firstFatal env f with
  | Some w =>
      ∃ evs h, setup env f = (evs, inl h) ∧ why h = w ∧
        existsb isError evs = true ∧
        existsb isSummary evs = bool_decide (w = OutputUncreatable) ∧
        ∀ tr st, ¬ mainRuns env f tr st
  | None =>
      ∃ evs scan, setup env f = (evs, inr scan) ∧
        existsb isError evs = false ∧ existsb isSummary evs = true
  end.
Proof.
  rewrite <- setup_ending.
  destruct (setup env f) as [evs [h|scan]] eqn:Hsetup; cbn [snd].
  - exists evs, h. destruct (setup_halt_report env f evs h Hsetup) as (He & Hs & Hno).
    done.
  - exists evs, scan. split; [done |].
    pose proof (setup_success_report env f evs scan Hsetup) as [He Hs]. done.
Qed.

Lemma setup_fatal_witness :
  ∃ evs h, setup mock flagsUncreatable = (evs, inl h) ∧ why h = OutputUncreatable ∧
    existsb isError evs = true ∧
    existsb isSummary evs = bool_decide (OutputUncreatable = OutputUncreatable) ∧
    ∀ tr st, ¬ mainRuns mock flagsUncreatable tr st.
Proof. exact (setup_fatal mock flagsUncreatable). Defined.
